(** * Dead store elimination over a control-flow graph

    A shallow embedding of [DeadStoreElimination.cpp]: the depth-first
    postorder of the blocks reachable from the entry block, the backward
    liveness solver ([loads_in] / [loads_out]) and the marking and erasing
    of dead stores, followed by the properties of the pass. *)

From stdpp Require Import gmap list sets.

(* stdpp's solvers clear hypotheses speculatively. *)
#[local] Set Warnings "-clear-no-such-hyp".

(** ** Data model *)

(** A [BasicBlock *] and a [Value *] are compared by identity only; both are
    modelled as natural-number identifiers. *)
Abbreviation BasicBlock := nat (only parsing).
Abbreviation Value := nat (only parsing).

(** The pass tells instructions apart with [dyn_cast<LoadInst>] and
    [dyn_cast<StoreInst>] and reads nothing but [getPointerOperand()].  The
    other attributes of a load or store (the stored value, the volatile flag)
    are kept in the model so that their irrelevance can be stated. *)
Inductive Instruction : Type :=
  | LoadInst (ptr : Value) (isVolatile : bool)
  | StoreInst (val ptr : Value) (isVolatile : bool)
  | OtherInst.

Global Instance Instruction_eq_dec : EqDecision Instruction.
Proof. solve_decision. Defined.

(** A block is its instructions in program order together with the blocks
    its terminator may branch to ([successors(BB)], possibly with repeats). *)
Record Block : Type := mkBlock {
  instructions : list Instruction;
  succs : list BasicBlock
}.

Record Function : Type := mkFunction {
  entry : BasicBlock;
  blocks : gmap BasicBlock Block
}.

Definition successors (F : Function) (BB : BasicBlock) : list BasicBlock :=
  match blocks F !! BB with
  | Some b => succs b
  | None => []
  end.

Definition instrs (F : Function) (BB : BasicBlock) : list Instruction :=
  match blocks F !! BB with
  | Some b => instructions b
  | None => []
  end.

(** ** Graph orderer: [dfsPostorder] *)

(** A [for] loop whose body may fail to return (out of fuel). *)
Fixpoint for_each {A S : Type} (body : A → S → option S) (l : list A) (s : S)
    : option S :=
  match l with
  | [] => Some s
  | x :: l' =>
      match body x s with
      | Some s' => for_each body l' s'
      | None => None
      end
  end.

(** [visited] and [order] are passed by reference in the source; here they
    are threaded as a pair.  The recursion is bounded by [fuel]; see
    [dfs_call_terminates] for a fuel that always suffices. *)
Fixpoint dfsPostorder (fuel : nat) (F : Function) (node : BasicBlock)
    (st : gset BasicBlock * list BasicBlock)
    : option (gset BasicBlock * list BasicBlock) :=
  match fuel with
  | O => None
  | S fuel' =>
      let visited := {[node]} ∪ st.1 in
      match
        for_each
          (λ succ st,
             if decide (succ ∈ st.1) then Some st
             else dfsPostorder fuel' F succ st)
          (successors F node) (visited, st.2)
      with
      | Some st' => Some (st'.1, st'.2 ++ [node])
      | None => None
      end
  end.

(** Every block identifier the function mentions. *)
Definition all_blocks (F : Function) : gset BasicBlock :=
  {[entry F]} ∪ dom (blocks F)
  ∪ list_to_set (mjoin (succs <$> (map_to_list (blocks F)).*2)).

Definition dfs_fuel (F : Function) : nat := size (all_blocks F).

(** ** Liveness solver *)

Record Liveness : Type := mkLiveness {
  loads_in : gmap BasicBlock (gset Value);
  loads_out : gmap BasicBlock (gset Value)
}.

(** [loads_in[BB] = {}; loads_out[BB] = {};] for every block of [order]. *)
Definition init_liveness (order : list BasicBlock) : Liveness :=
  foldl
    (λ lv BB,
       mkLiveness (<[BB := ∅]> (loads_in lv)) (<[BB := ∅]> (loads_out lv)))
    (mkLiveness ∅ ∅) order.

(** One instruction of the bottom-to-top scan of the solver. *)
Definition transfer_instr (Instr : Instruction) (new_in : gset Value)
    : gset Value :=
  match Instr with
  | LoadInst ptr _ => {[ptr]} ∪ new_in
  | StoreInst _ ptr _ =>
      if decide (ptr ∈ new_in) then new_in ∖ {[ptr]} else new_in
  | OtherInst => new_in
  end.

(** The scan [for (I = BB->rbegin(); I != BB->rend(); I++)]. *)
Definition transfer (body : list Instruction) (out : gset Value) : gset Value :=
  foldl (λ new_in Instr, transfer_instr Instr new_in) out (reverse body).

(** The union of the [loads_in] sets of the successors.  [m !!! k] is the
    set stored at [k], and the empty set where the source's [operator[]]
    would create an empty entry. *)
Definition union_of_in (lin : gmap BasicBlock (gset Value))
    (ss : list BasicBlock) : gset Value :=
  foldl (λ new_out succ, new_out ∪ lin !!! succ) ∅ ss.

(** The body of the loop over [order] inside [while (changed)]. *)
Definition visit_block (F : Function) (BB : BasicBlock)
    (st : bool * Liveness) : bool * Liveness :=
  let '(changed, lv) := st in
  let new_out := union_of_in (loads_in lv) (successors F BB) in
  let '(changed, lout) :=
    if decide (new_out ≠ loads_out lv !!! BB)
    then (true, <[BB := new_out]> (loads_out lv))
    else (changed, loads_out lv) in
  let new_in := transfer (instrs F BB) (lout !!! BB) in
  let '(changed, lin) :=
    if decide (new_in ≠ loads_in lv !!! BB)
    then (true, <[BB := new_in]> (loads_in lv))
    else (changed, loads_in lv) in
  (changed, mkLiveness lin lout).

(** One full pass: [changed = false; for (BB : order) ...]. *)
Definition solver_pass (F : Function) (order : list BasicBlock)
    (lv : Liveness) : bool * Liveness :=
  foldl (λ st BB, visit_block F BB st) (false, lv) order.

(** [while (changed)], bounded by [fuel]; see [solve_returns]. *)
Fixpoint solve (fuel : nat) (F : Function) (order : list BasicBlock)
    (lv : Liveness) : option Liveness :=
  match fuel with
  | O => None
  | S fuel' =>
      let '(changed, lv') := solver_pass F order lv in
      if changed then solve fuel' F order lv' else Some lv'
  end.

(** The pointer operands of the loads of a list of instructions / blocks. *)
Definition load_ptrs_of (body : list Instruction) : gset Value :=
  foldr (λ Instr acc,
           match Instr with LoadInst ptr _ => {[ptr]} ∪ acc | _ => acc end)
        ∅ body.

Definition load_ptrs (F : Function) (order : list BasicBlock) : gset Value :=
  foldr (λ BB acc, load_ptrs_of (instrs F BB) ∪ acc) ∅ order.

Definition solve_fuel (F : Function) (order : list BasicBlock) : nat :=
  S (2 * length order * size (load_ptrs F order)).

(** ** Dead store marker and eraser *)

(** An [Instruction *] is identified with the block that owns it and its
    index in that block when the pass starts. *)
Abbreviation InstrRef := (BasicBlock * nat)%type (only parsing).

(** The instructions of a block, each with its index (counted from [k]). *)
Fixpoint numbered (k : nat) (body : list Instruction)
    : list (nat * Instruction) :=
  match body with
  | [] => []
  | Instr :: body' => (k, Instr) :: numbered (S k) body'
  end.

(** One instruction of the marking scan; [loads_out[BB]] is updated in
    place. *)
Definition mark_instr (BB : BasicBlock) (iI : nat * Instruction)
    (st : gmap BasicBlock (gset Value) * list InstrRef)
    : gmap BasicBlock (gset Value) * list InstrRef :=
  let '(lout, toErase) := st in
  match iI.2 with
  | LoadInst ptr _ => (<[BB := {[ptr]} ∪ lout !!! BB]> lout, toErase)
  | StoreInst _ ptr _ =>
      if decide (ptr ∈ lout !!! BB)
      then (<[BB := lout !!! BB ∖ {[ptr]}]> lout, toErase)
      else (lout, toErase ++ [(BB, iI.1)])
  | OtherInst => st
  end.

Definition mark_block (F : Function) (BB : BasicBlock)
    (st : gmap BasicBlock (gset Value) * list InstrRef)
    : gmap BasicBlock (gset Value) * list InstrRef :=
  foldl (λ st iI, mark_instr BB iI st) st (reverse (numbered 0 (instrs F BB))).

Definition mark (F : Function) (order : list BasicBlock)
    (lout : gmap BasicBlock (gset Value))
    : gmap BasicBlock (gset Value) * list InstrRef :=
  foldl (λ st BB, mark_block F BB st) (lout, []) order.

(** [Instr->eraseFromParent()] for every marked instruction: each block
    keeps exactly the instructions that are not marked. *)
Definition keep_unmarked (BB : BasicBlock) (toErase : list InstrRef)
    (body : list Instruction) : list Instruction :=
  (filter (λ iI : nat * Instruction, (BB, iI.1) ∉ toErase)
          (numbered 0 body)).*2.

Definition erase_all (F : Function) (toErase : list InstrRef) : Function :=
  mkFunction (entry F)
    (map_imap
       (λ BB b,
          Some (mkBlock (keep_unmarked BB toErase (instructions b)) (succs b)))
       (blocks F)).

(** ** The pass *)

(** The instructions [runOnFunction] collects in [toErase]. *)
Definition dead_stores (F : Function) : option (list InstrRef) :=
  match dfsPostorder (dfs_fuel F) F (entry F) (∅, []) with
  | Some (visited, order) =>
      match solve (solve_fuel F order) F order (init_liveness order) with
      | Some lv => Some (mark F order (loads_out lv)).2
      | None => None
      end
  | None => None
  end.

(** The function after the pass, and the returned [!toErase.empty()]. *)
Definition runOnFunction (F : Function) : option (Function * bool) :=
  match dead_stores F with
  | Some toErase => Some (erase_all F toErase, bool_decide (toErase ≠ []))
  | None => None
  end.

(** ** Fixtures *)

Definition store (L : Value) : Instruction := StoreInst 0 L false.
Definition load (L : Value) : Instruction := LoadInst L false.

(** A function made of one block, the entry [e]. *)
Definition single_block (e : BasicBlock) (body : list Instruction)
    (ss : list BasicBlock) : Function :=
  mkFunction e {[ e := mkBlock body ss ]}.

(** [store L1, store L1], no successors. *)
Definition F_chain : Function := single_block 0 [store 1; store 1] [].
(** [F_chain] with another stored value and the volatile flag on its first
    store. *)
Definition F_chain_volatile : Function :=
  single_block 0 [StoreInst 7 1 true; StoreInst 0 1 false] [].
(** [store L1, store L1, load L1], no successors: the first store is
    overwritten, the second is read. *)
Definition F_overwrite : Function :=
  single_block 0 [store 1; store 1; load 1] [].
(** [F_overwrite] with other stored values and both stores volatile. *)
Definition F_overwrite_volatile : Function :=
  single_block 0 [StoreInst 7 1 true; StoreInst 9 1 true; load 1] [].
(** [store L1, load L1], the block its own successor. *)
Definition F_loop : Function := single_block 0 [store 1; load 1] [0].
(** [store L1, load L1], no successors. *)
Definition F_straight : Function := single_block 0 [store 1; load 1] [].

(** A diamond with a back edge, [0 -> {1, 2} -> 3] and [2 -> 0], and a block
    [4] that nothing reaches. *)
Definition F_diamond : Function :=
  mkFunction 0
    (<[0 := mkBlock [store 1; OtherInst] [1; 2]]>
     (<[1 := mkBlock [load 1; OtherInst] [3]]>
     (<[2 := mkBlock [store 2; OtherInst] [3; 0]]>
     (<[3 := mkBlock [store 1; load 2; OtherInst] []]>
     (<[4 := mkBlock [store 5; OtherInst] [0]]> ∅))))).

(** ** Reachability in the control-flow graph *)

Definition edge (F : Function) (a b : BasicBlock) : Prop :=
  b ∈ successors F a.

Definition reachable (F : Function) : BasicBlock → BasicBlock → Prop :=
  rtc (edge F).

(** [white_path F V a b]: a path from [a] to [b] along successor edges, none
    of whose blocks is in [V] (the blocks already visited). *)
Inductive white_path (F : Function) (V : gset BasicBlock)
    : BasicBlock → BasicBlock → Prop :=
  | white_here a : a ∉ V → white_path F V a a
  | white_step a c b :
      a ∉ V → edge F a c → white_path F V c b → white_path F V a b.

(** The body of the loop over the successors in [dfsPostorder]. *)
Definition dfs_succ (fuel : nat) (F : Function) (succ : BasicBlock)
    (st : gset BasicBlock * list BasicBlock)
    : option (gset BasicBlock * list BasicBlock) :=
  if decide (succ ∈ st.1) then Some st else dfsPostorder fuel F succ st.

(** What one call appends: [new] lists fresh blocks, without repeats, whose
    successors have all been visited on return. *)
Definition dfs_appended (F : Function) (V V' : gset BasicBlock)
    (new : list BasicBlock) : Prop :=
  V' = V ∪ list_to_set new ∧ NoDup new ∧ (∀ b, b ∈ new → b ∉ V) ∧
  (∀ b s, b ∈ new → s ∈ successors F b → s ∈ V').

(** ** Depth-first postorder, declaratively *)

(** [postorder F V node l]: [l] is the depth-first postorder from [node]
    when the blocks of [V] have been visited already: the postorders from
    the successors of [node], taken in their order and skipping those visited
    by then, followed by [node] itself.  [postorder_succs F V ss l]: [l] is
    the concatenation of these postorders for the successors [ss]. *)
Inductive postorder (F : Function)
    : gset BasicBlock → BasicBlock → list BasicBlock → Prop :=
  | postorder_node V node l :
      node ∉ V →
      postorder_succs F ({[node]} ∪ V) (successors F node) l →
      postorder F V node (l ++ [node])
with postorder_succs (F : Function)
    : gset BasicBlock → list BasicBlock → list BasicBlock → Prop :=
  | postorder_done V : postorder_succs F V [] []
  | postorder_skip V s ss l :
      s ∈ V → postorder_succs F V ss l → postorder_succs F V (s :: ss) l
  | postorder_visit V s ss l1 l2 :
      s ∉ V → postorder F V s l1 →
      postorder_succs F (V ∪ list_to_set l1) ss l2 →
      postorder_succs F V (s :: ss) (l1 ++ l2).

(** ** Vocabulary of the solver's invariants *)

(** The two sets a visit of [BB] computes from the current state. *)
Definition new_out_of (F : Function) (lv : Liveness) (BB : BasicBlock)
    : gset Value :=
  union_of_in (loads_in lv) (successors F BB).

Definition new_in_of (F : Function) (lv : Liveness) (BB : BasicBlock)
    : gset Value :=
  transfer (instrs F BB) (new_out_of F lv BB).

(** Pointwise inclusion of liveness states. *)
Definition liveness_le (lv lv' : Liveness) : Prop :=
  ∀ B, loads_in lv !!! B ⊆ loads_in lv' !!! B ∧
       loads_out lv !!! B ⊆ loads_out lv' !!! B.

(** No stored set is larger than what a visit would compute for it: the
    reason why the sets only grow. *)
Definition ascending (F : Function) (lv : Liveness) : Prop :=
  ∀ B, loads_out lv !!! B ⊆ new_out_of F lv B ∧
       loads_in lv !!! B ⊆ transfer (instrs F B) (loads_out lv !!! B).

(** The dataflow equations at one block. *)
Definition fixpoint_at (F : Function) (lv : Liveness) (B : BasicBlock) : Prop :=
  loads_out lv !!! B = union_of_in (loads_in lv) (successors F B) ∧
  loads_in lv !!! B = transfer (instrs F B) (loads_out lv !!! B).

(** A state that a visit of any block of [order] could only shrink. *)
Definition post_fixpoint (F : Function) (order : list BasicBlock)
    (lv : Liveness) : Prop :=
  ∀ B, B ∈ order →
       union_of_in (loads_in lv) (successors F B) ⊆ loads_out lv !!! B ∧
       transfer (instrs F B) (loads_out lv !!! B) ⊆ loads_in lv !!! B.

Definition bounded (L : gset Value) (lv : Liveness) : Prop :=
  ∀ B, loads_in lv !!! B ⊆ L ∧ loads_out lv !!! B ⊆ L.

(** The visits of a list of blocks, in sequence. *)
Definition visits (F : Function) (l : list BasicBlock) (st : bool * Liveness)
    : bool * Liveness :=
  foldl (λ st BB, visit_block F BB st) st l.

(** The termination measure: the total size of the sets of the blocks of the
    order. *)
Definition weight (lv : Liveness) (B : BasicBlock) : nat :=
  size (loads_in lv !!! B) + size (loads_out lv !!! B).

Definition total_weight (order : list BasicBlock) (lv : Liveness) : nat :=
  sum_list_with (weight lv) order.

(** ** Vocabulary of the marker and eraser *)

(** The marking scan of one block, on a local copy of [loads_out[BB]]. *)
Definition mark_local (BB : BasicBlock) (iI : nat * Instruction)
    (st : gset Value * list InstrRef) : gset Value * list InstrRef :=
  match iI.2 with
  | LoadInst ptr _ => ({[ptr]} ∪ st.1, st.2)
  | StoreInst _ ptr _ =>
      if decide (ptr ∈ st.1) then (st.1 ∖ {[ptr]}, st.2)
      else (st.1, st.2 ++ [(BB, iI.1)])
  | OtherInst => st
  end.

(** The instruction at index [i] of [body] is a store to a location that is
    not in the set the backward scan from [X] has reached just below it. *)
Definition is_dead_store (body : list Instruction) (X : gset Value) (i : nat)
    : Prop :=
  match body !! i with
  | Some (StoreInst _ ptr _) => ptr ∉ transfer (drop (S i) body) X
  | _ => False
  end.

(** [body] without its dead stores. *)
Fixpoint prune (body : list Instruction) (X : gset Value) : list Instruction :=
  match body with
  | [] => []
  | Instr :: body' =>
      match Instr with
      | StoreInst _ ptr _ =>
          if decide (ptr ∈ transfer body' X) then Instr :: prune body' X
          else prune body' X
      | _ => Instr :: prune body' X
      end
  end.

(** What [runOnFunction] has computed when it starts erasing: the blocks
    reachable from the entry, the least solution of the dataflow equations on
    them, and the dead stores with respect to that solution. *)
Record analysis (F : Function) (order : list BasicBlock) (lv : Liveness)
    (toErase : list InstrRef) : Prop := mkAnalysis {
  an_nodup : NoDup order;
  an_reachable : ∀ B, B ∈ order ↔ reachable F (entry F) B;
  an_fixpoint : ∀ B, B ∈ order → fixpoint_at F lv B;
  an_least : ∀ fp, post_fixpoint F order fp → liveness_le lv fp;
  an_dead : ∀ B i,
    (B, i) ∈ toErase ↔
    B ∈ order ∧ is_dead_store (instrs F B) (loads_out lv !!! B) i
}.

(** [erasure gone k body body']: [body'] is [body], whose first instruction
    has index [k], without exactly the instructions whose index satisfies
    [gone]; the other instructions stay, in order. *)
Inductive erasure (gone : nat → Prop)
    : nat → list Instruction → list Instruction → Prop :=
  | erasure_nil k : erasure gone k [] []
  | erasure_keep k Instr body body' :
      ¬ gone k → erasure gone (S k) body body' →
      erasure gone k (Instr :: body) (Instr :: body')
  | erasure_drop k Instr body body' :
      gone k → erasure gone (S k) body body' →
      erasure gone k (Instr :: body) body'.

(** Every block of [F'] is the block of [F] without exactly the instructions
    that [toErase] refers to. *)
Definition erases_exactly (F F' : Function) (toErase : list InstrRef)
    : Prop :=
  ∀ B, erasure (λ i, (B, i) ∈ toErase) 0 (instrs F B) (instrs F' B).

(** ** Execution paths *)

(** [may_read F L B k]: some execution path that starts just before the
    instruction of index [k] of block [B] reaches a load of [L] without
    passing a store to [L].  A path runs through the instructions of a
    block in order and continues, after the last one, at the first instruction
    of any successor. *)
Inductive may_read (F : Function) (L : Value) : BasicBlock → nat → Prop :=
  | may_read_load B k vol :
      instrs F B !! k = Some (LoadInst L vol) → may_read F L B k
  | may_read_next B k Instr :
      instrs F B !! k = Some Instr →
      (∀ val vol, Instr ≠ StoreInst val L vol) →
      may_read F L B (S k) → may_read F L B k
  | may_read_succ B k S :
      k = length (instrs F B) → S ∈ successors F B →
      may_read F L S 0 → may_read F L B k.

(** ** The dataflow equations, in the words of the specification *)

(** The block-local backward transfer: a load of [L] inserts [L], a store to
    [L] removes [L], every other instruction leaves the set unchanged. *)
Definition spec_transfer_step (Instr : Instruction) (X : gset Value)
    : gset Value :=
  match Instr with
  | LoadInst L _ => X ∪ {[L]}
  | StoreInst _ L _ => X ∖ {[L]}
  | OtherInst => X
  end.

(** The instructions are applied from last to first. *)
Definition spec_transfer (body : list Instruction) (X : gset Value)
    : gset Value :=
  foldr spec_transfer_step X body.

(** The union of [in[S]] over the successors [S]. *)
Definition spec_union (lin : gmap BasicBlock (gset Value))
    (ss : list BasicBlock) : gset Value :=
  ⋃ ((λ S, lin !!! S) <$> ss).

(** The state after [n] full passes from the initial state. *)
Definition passes (F : Function) (order : list BasicBlock) (n : nat)
    : Liveness :=
  Nat.iter n (λ lv, (solver_pass F order lv).2) (init_liveness order).

(** ** Attributes the pass does not read *)

(** Two instructions that the pass cannot tell apart: the same instruction,
    or two stores with the same pointer operand. *)
Definition same_access (I J : Instruction) : Prop :=
  match I, J with
  | StoreInst _ ptr _, StoreInst _ ptr' _ => ptr = ptr'
  | _, _ => I = J
  end.

(** Two functions that differ at most in the stored value and the volatile
    flag of their stores. *)
Definition same_up_to_store_attributes (F G : Function) : Prop :=
  entry F = entry G ∧
  ∀ B, successors F B = successors G B ∧
       Forall2 same_access (instrs F B) (instrs G B).

(** ** More fixtures *)

(** Live across a branch: the entry stores to [L1] and branches to a block
    that loads [L1] and to one that does not use it. *)
Definition F_branch : Function :=
  mkFunction 0
    (<[0 := mkBlock [store 1; OtherInst] [1; 2]]>
     (<[1 := mkBlock [load 1; OtherInst] []]>
     (<[2 := mkBlock [OtherInst] []]> ∅))).

(** The solution on [F_diamond]. *)
Definition lv_diamond : Liveness :=
  mkLiveness
    (<[0 := {[2]}]> (<[1 := {[1; 2]}]> (<[2 := ∅]> (<[3 := {[2]}]> ∅))))
    (<[0 := {[1; 2]}]> (<[1 := {[2]}]> (<[2 := {[2]}]> (<[3 := ∅]> ∅)))).


(** ** Vocabulary of the further properties *)

(** The pointer operands of the stores of a list of instructions. *)
Definition stored_ptrs_of (body : list Instruction) : gset Value :=
  foldr (λ Instr acc,
           match Instr with StoreInst _ ptr _ => {[ptr]} ∪ acc | _ => acc end)
        ∅ body.

(** [is_store Instr]: [dyn_cast<StoreInst>] succeeds. *)
Definition is_store (Instr : Instruction) : bool :=
  match Instr with StoreInst _ _ _ => true | _ => false end.

(** [x] stands at a smaller index than [y] in [l]. *)
Definition before (l : list BasicBlock) (x y : BasicBlock) : Prop :=
  ∃ i j, l !! i = Some x ∧ l !! j = Some y ∧ i < j.

(** The blocks visited but not yet appended are the callers on the stack;
    each of them reaches the block being visited. *)
Definition stack_reaches (F : Function) (V : gset BasicBlock)
    (ord : list BasicBlock) (node : BasicBlock) : Prop :=
  (∀ x, x ∈ ord → x ∈ V) ∧
  (∀ g, g ∈ V → g ∉ ord → reachable F g node).

(** Every location of the state is one that a path from the start of the
    block ([loads_in]) or from its end ([loads_out]) may read. *)
Definition within_paths (F : Function) (lv : Liveness) : Prop :=
  ∀ B L,
    (L ∈ loads_in lv !!! B → may_read F L B 0) ∧
    (L ∈ loads_out lv !!! B → may_read F L B (length (instrs F B))).

(** The keys of both maps are the blocks of [order]. *)
Definition keyed_by (order : list BasicBlock) (lv : Liveness) : Prop :=
  dom (loads_in lv) = list_to_set order ∧
  dom (loads_out lv) = list_to_set order.

(** * Properties of the graph orderer *)

Section Orderer.
Variable F : Function.

Lemma dfsPostorder_unfold fuel node st :
  dfsPostorder (S fuel) F node st =
    match for_each (dfs_succ fuel F) (successors F node)
            ({[node]} ∪ st.1, st.2) with
    | Some st' => Some (st'.1, st'.2 ++ [node])
    | None => None
    end.
Proof. reflexivity. Qed.

Lemma white_path_end V a b : white_path F V a b → b ∉ V.
Proof. by induction 1. Qed.

Lemma white_path_mono V V' a b :
  V ⊆ V' → white_path F V' a b → white_path F V a b.
Proof.
  intros HV. induction 1 as [a Ha | a c b Ha Hac _ IH].
  - apply white_here. set_solver.
  - eapply white_step; [set_solver | done | done].
Qed.

Lemma white_path_reachable V a b : white_path F V a b → reachable F a b.
Proof.
  induction 1 as [a _ | a c b _ Hac _ IH]; [apply rtc_refl |].
  by eapply rtc_l.
Qed.

Lemma reachable_white_path a b : reachable F a b → white_path F ∅ a b.
Proof.
  induction 1 as [a | a c b Hac _ IH].
  - apply white_here. set_solver.
  - eapply white_step; [set_solver | done | done].
Qed.

(** A set of fresh blocks whose successors all lie in [V'] contains every
    block a white path can reach from one of them. *)
Lemma white_path_closed (V V' : gset BasicBlock) a b :
  (∀ x s, x ∈ V' → x ∉ V → s ∈ successors F x → s ∈ V') →
  white_path F V a b → a ∈ V' → b ∈ V'.
Proof.
  intros Hcl. induction 1 as [a Ha | a c b Ha Hac _ IH]; [done |].
  intros HaV'. apply IH. by eapply Hcl.
Qed.

Lemma dfs_loop_spec fuel
    (IH : ∀ node V ord V' ord',
        node ∉ V → dfsPostorder fuel F node (V, ord) = Some (V', ord') →
        ∃ l, ord' = ord ++ l ++ [node] ∧ dfs_appended F V V' (l ++ [node]) ∧
             ∀ b, b ∈ l ++ [node] → white_path F V node b)
    ss V ord V' ord' :
  for_each (dfs_succ fuel F) ss (V, ord) = Some (V', ord') →
  ∃ l, ord' = ord ++ l ∧ dfs_appended F V V' l ∧
       (∀ b, b ∈ l → ∃ s, s ∈ ss ∧ white_path F V s b) ∧
       (∀ s, s ∈ ss → s ∈ V').
Proof.
  revert V ord. induction ss as [| s ss IHss]; intros V ord; simpl.
  - intros [= <- <-]. exists []. rewrite app_nil_r.
    split; [done |]. split; [| set_solver].
    split; [set_solver |]. split; [constructor | set_solver].
  - unfold dfs_succ at 1; simpl. destruct (decide (s ∈ V)) as [Hs | Hs].
    + intros Hloop. destruct (IHss _ _ Hloop) as (l & -> & Happ & Hwp & Hin).
      exists l. split; [done |]. split; [done |]. split.
      * intros b Hb. destruct (Hwp b Hb) as (s' & ? & ?).
        exists s'. split; [by right | done].
      * intros s' [-> | ?]%elem_of_cons; [| by apply Hin].
        destruct Happ as (-> & _). set_solver.
    + destruct (dfsPostorder fuel F s (V, ord)) as [[V1 ord1] |] eqn:Hcall;
        [| done].
      intros Hloop.
      destruct (IH _ _ _ _ _ Hs Hcall)
        as (l1 & -> & (-> & Hnd1 & Hfresh1 & Hcl1) & Hwp1).
      destruct (IHss _ _ Hloop)
        as (l2 & -> & (-> & Hnd2 & Hfresh2 & Hcl2) & Hwp2 & Hin2).
      exists ((l1 ++ [s]) ++ l2). split; [by rewrite !app_assoc |].
      split; [split; [| split; [| split]] | split].
      * rewrite list_to_set_app_L. set_solver.
      * apply NoDup_app. split; [done |]. split; [| done].
        intros b Hb Hb2. apply Hfresh2 in Hb2. set_solver.
      * intros b [Hb | Hb]%elem_of_app; [by apply Hfresh1 |].
        apply Hfresh2 in Hb. set_solver.
      * intros b s' [Hb | Hb]%elem_of_app Hs'.
        -- pose proof (Hcl1 _ _ Hb Hs'). set_solver.
        -- by eapply Hcl2.
      * intros b [Hb | Hb]%elem_of_app.
        -- exists s. split; [by left | by apply Hwp1].
        -- destruct (Hwp2 b Hb) as (s' & ? & Hw). exists s'.
           split; [by right |]. eapply white_path_mono; [| done]. set_solver.
      * intros s' [-> | ?]%elem_of_cons; [| by apply Hin2]. set_solver.
Qed.

Lemma dfs_call_spec fuel node V ord V' ord' :
  node ∉ V → dfsPostorder fuel F node (V, ord) = Some (V', ord') →
  ∃ l, ord' = ord ++ l ++ [node] ∧ dfs_appended F V V' (l ++ [node]) ∧
       ∀ b, b ∈ l ++ [node] → white_path F V node b.
Proof.
  revert node V ord V' ord'.
  induction fuel as [| fuel IH]; intros node V ord V' ord' Hnode; [done |].
  rewrite dfsPostorder_unfold; simpl.
  destruct (for_each _ _ _) as [[V1 ord1] |] eqn:Hloop; [| done].
  intros [= <- <-].
  destruct (dfs_loop_spec fuel IH _ _ _ _ _ Hloop)
    as (l & -> & (-> & Hnd & Hfresh & Hcl) & Hwp & Hin).
  exists l. split; [by rewrite app_assoc |].
  split; [split; [| split; [| split]] |].
  - rewrite list_to_set_app_L. set_solver.
  - apply NoDup_app. split; [done |]. split; [| apply NoDup_singleton].
    intros b Hb ->%list_elem_of_singleton. apply Hfresh in Hb. set_solver.
  - intros b [Hb | ->%list_elem_of_singleton]%elem_of_app; [| done].
    apply Hfresh in Hb. set_solver.
  - intros b s [Hb | ->%list_elem_of_singleton]%elem_of_app Hs.
    + by eapply Hcl.
    + by apply Hin.
  - intros b [Hb | ->%list_elem_of_singleton]%elem_of_app.
    + destruct (Hwp b Hb) as (s & Hs & Hw).
      eapply white_step; [done | exact Hs |].
      eapply white_path_mono; [| done]. set_solver.
    + by apply white_here.
Qed.

(** The blocks a call appends are exactly those a white path reaches. *)
Lemma dfs_call_complete fuel node V ord V' ord' l :
  node ∉ V → dfsPostorder fuel F node (V, ord) = Some (V', ord') →
  ord' = ord ++ l ++ [node] → dfs_appended F V V' (l ++ [node]) →
  ∀ b, white_path F V node b → b ∈ l ++ [node].
Proof.
  intros Hnode _ _ (-> & _ & _ & Hcl) b Hw.
  assert (b ∈ V ∪ list_to_set (l ++ [node])) as Hb.
  { eapply white_path_closed; [| done | set_solver].
    intros x s Hx HxV Hs. eapply Hcl; [| done]. set_solver. }
  apply white_path_end in Hw. set_solver.
Qed.

Lemma successors_all_blocks a s : s ∈ successors F a → s ∈ all_blocks F.
Proof.
  unfold successors, all_blocks.
  destruct (blocks F !! a) as [b |] eqn:Hb; [| by intros ?%elem_of_nil].
  intros Hs. apply elem_of_union_r, elem_of_list_to_set, list_elem_of_join.
  exists (succs b). split; [done |].
  apply list_elem_of_fmap. exists b. split; [done |].
  apply list_elem_of_fmap. exists (a, b). split; [done |].
  by apply elem_of_map_to_list.
Qed.

(** Every call on a fresh block marks it visited, so the number of blocks
    not yet visited bounds the depth of the recursion. *)
Lemma dfs_call_terminates fuel node V ord :
  node ∈ all_blocks F → node ∉ V → size (all_blocks F ∖ V) ≤ fuel →
  is_Some (dfsPostorder fuel F node (V, ord)).
Proof.
  revert node V ord.
  induction fuel as [| fuel IH]; intros node V ord Hin Hnot Hsz.
  - assert (all_blocks F ∖ V ≢ ∅) as Hne by set_solver.
    apply size_non_empty_iff in Hne. lia.
  - assert (∀ ss V1 ord1,
               (∀ s, s ∈ ss → s ∈ all_blocks F) →
               size (all_blocks F ∖ V1) ≤ fuel →
               is_Some (for_each (dfs_succ fuel F) ss (V1, ord1))) as Hloop.
    { induction ss as [| s ss IHss]; intros V1 ord1 Hss Hsz1; simpl; [eauto |].
      unfold dfs_succ at 1; simpl. destruct (decide (s ∈ V1)) as [Hs | Hs].
      - apply IHss; [intros; apply Hss; by right | done].
      - destruct (IH s V1 ord1) as [[V2 ord2] Hcall];
          [apply Hss; by left | done | done |].
        rewrite Hcall.
        destruct (dfs_call_spec _ _ _ _ _ _ Hs Hcall) as (l & _ & (-> & _) & _).
        apply IHss; [intros; apply Hss; by right |].
        etrans; [| exact Hsz1]. apply subseteq_size. set_solver. }
    rewrite dfsPostorder_unfold; simpl.
    destruct (Hloop (successors F node) ({[node]} ∪ V) ord) as [st' ->];
      [intros; by eapply successors_all_blocks | | eauto].
    assert (all_blocks F ∖ ({[node]} ∪ V) ⊂ all_blocks F ∖ V) as Hlt
      by set_solver.
    apply subset_size in Hlt. lia.
Qed.

(** The order [runOnFunction] works with. *)
Lemma dfs_order_spec :
  ∃ visited order,
    dfsPostorder (dfs_fuel F) F (entry F) (∅, []) = Some (visited, order) ∧
    visited = list_to_set order ∧ NoDup order ∧
    (∀ b, b ∈ order ↔ reachable F (entry F) b) ∧
    (∀ b s, b ∈ order → s ∈ successors F b → s ∈ order).
Proof.
  destruct (dfs_call_terminates (dfs_fuel F) (entry F) ∅ [])
    as [[visited order] Hcall].
  { unfold all_blocks. set_solver. }
  { set_solver. }
  { unfold dfs_fuel. apply subseteq_size. set_solver. }
  exists visited, order. split; [done |].
  destruct (dfs_call_spec _ _ _ _ _ _ (not_elem_of_empty _) Hcall)
    as (l & Hord & Happ & Hwp).
  pose proof (dfs_call_complete _ _ _ _ _ _ l (not_elem_of_empty _)
                Hcall Hord Happ) as Hcomplete.
  simpl in Hord. subst order.
  destruct Happ as (-> & Hnd & _ & Hcl).
  split; [set_solver |]. split; [done |]. split.
  - intros b. split.
    + intros Hb. eapply white_path_reachable. by apply Hwp.
    + intros Hb. by apply Hcomplete, reachable_white_path.
  - intros b s Hb Hs. pose proof (Hcl _ _ Hb Hs) as Hin.
    apply elem_of_union in Hin as [Hin | Hin]; [set_solver |].
    by apply elem_of_list_to_set in Hin.
Qed.
End Orderer.

(** * Properties of the liveness solver *)

(** ** The block transfer function *)

Lemma transfer_nil (X : gset Value) : transfer [] X = X.
Proof. reflexivity. Qed.

Lemma transfer_cons Instr body (X : gset Value) :
  transfer (Instr :: body) X = transfer_instr Instr (transfer body X).
Proof. unfold transfer. by rewrite reverse_cons, foldl_snoc. Qed.

Lemma transfer_instr_store val ptr vol (X : gset Value) :
  transfer_instr (StoreInst val ptr vol) X = X ∖ {[ptr]}.
Proof. simpl. case_decide; set_solver. Qed.

Lemma transfer_instr_mono Instr (X Y : gset Value) :
  X ⊆ Y → transfer_instr Instr X ⊆ transfer_instr Instr Y.
Proof.
  intros HXY. destruct Instr as [ptr vol | val ptr vol |].
  - simpl. set_solver.
  - rewrite !transfer_instr_store. set_solver.
  - done.
Qed.

Lemma transfer_mono body (X Y : gset Value) :
  X ⊆ Y → transfer body X ⊆ transfer body Y.
Proof.
  intros HXY. induction body as [| Instr body IH]; [done |].
  rewrite !transfer_cons. by apply transfer_instr_mono.
Qed.

(** Only loads add a location. *)
Lemma transfer_instr_bound Instr (X : gset Value) :
  transfer_instr Instr X ⊆ load_ptrs_of [Instr] ∪ X.
Proof.
  destruct Instr as [ptr vol | val ptr vol |].
  - simpl. set_solver.
  - rewrite transfer_instr_store. set_solver.
  - simpl. set_solver.
Qed.

Lemma load_ptrs_of_cons Instr body :
  load_ptrs_of (Instr :: body) = load_ptrs_of [Instr] ∪ load_ptrs_of body.
Proof. destruct Instr; simpl; set_solver. Qed.

Lemma transfer_bound body (X : gset Value) :
  transfer body X ⊆ load_ptrs_of body ∪ X.
Proof.
  induction body as [| Instr body IH]; [set_solver |].
  rewrite transfer_cons, load_ptrs_of_cons.
  pose proof (transfer_instr_bound Instr (transfer body X)).
  pose proof (transfer_instr_mono Instr _ _ IH).
  pose proof (transfer_instr_bound Instr (load_ptrs_of body ∪ X)).
  set_solver.
Qed.

Lemma elem_of_load_ptrs_of ptr body :
  ptr ∈ load_ptrs_of body ↔ ∃ i vol, body !! i = Some (LoadInst ptr vol).
Proof.
  induction body as [| Instr body IH].
  - split; [set_solver | by intros (i & vol & ?)].
  - rewrite load_ptrs_of_cons, elem_of_union, IH. split.
    + intros [Hhd | (i & vol & Hi)].
      * destruct Instr as [q vol | |]; simpl in Hhd; try set_solver.
        exists 0, vol. simpl. f_equal. f_equal. set_solver.
      * by exists (S i), vol.
    + intros ([| i] & vol & Hi); simpl in Hi.
      * left. injection Hi as ->. simpl. set_solver.
      * right. eauto.
Qed.

Lemma elem_of_load_ptrs F ptr order :
  ptr ∈ load_ptrs F order ↔
  ∃ BB i vol, BB ∈ order ∧ instrs F BB !! i = Some (LoadInst ptr vol).
Proof.
  induction order as [| BB order IH]; simpl.
  - split; [set_solver |]. intros (BB & i & vol & ?%elem_of_nil & _). done.
  - rewrite elem_of_union, IH, elem_of_load_ptrs_of. split.
    + intros [(i & vol & Hi) | (B & i & vol & HB & Hi)].
      * exists BB, i, vol. split; [by left | done].
      * exists B, i, vol. split; [by right | done].
    + intros (B & i & vol & [-> | HB]%elem_of_cons & Hi); [left | right]; eauto.
Qed.

(** ** The union over the successors *)

Lemma elem_of_union_of_in (lin : gmap BasicBlock (gset Value)) ss x :
  x ∈ union_of_in lin ss ↔ ∃ s, s ∈ ss ∧ x ∈ lin !!! s.
Proof.
  unfold union_of_in.
  assert (∀ acc : gset Value,
             x ∈ foldl (λ new_out succ, new_out ∪ lin !!! succ) acc ss ↔
             x ∈ acc ∨ ∃ s, s ∈ ss ∧ x ∈ lin !!! s) as Hgen.
  { induction ss as [| s ss IH]; intros acc; simpl.
    - split; [by left |]. intros [? | (s & ?%elem_of_nil & _)]; done.
    - rewrite IH, elem_of_union. split.
      + intros [[? | ?] | (s' & ? & ?)]; [by left | right | right].
        * exists s. split; [by left | done].
        * exists s'. split; [by right | done].
      + intros [? | (s' & [-> | ?]%elem_of_cons & ?)];
          [by left; left | by left; right | right; eauto]. }
  rewrite Hgen. set_solver.
Qed.

Lemma union_of_in_mono (lin lin' : gmap BasicBlock (gset Value)) ss :
  (∀ s, s ∈ ss → lin !!! s ⊆ lin' !!! s) →
  union_of_in lin ss ⊆ union_of_in lin' ss.
Proof.
  intros Hle x. rewrite !elem_of_union_of_in.
  intros (s & Hs & Hx). exists s. split; [done |]. by apply Hle.
Qed.

(** ** One visit of a block *)

Section Solver.
Variable F : Function.

Lemma visit_block_spec BB changed lv :
  ∃ changed' lv',
    visit_block F BB (changed, lv) = (changed', lv') ∧
    (∀ B, loads_out lv' !!! B =
            if decide (B = BB) then new_out_of F lv BB
            else loads_out lv !!! B) ∧
    (∀ B, loads_in lv' !!! B =
            if decide (B = BB) then new_in_of F lv BB else loads_in lv !!! B) ∧
    (changed' = true ↔
       changed = true ∨ new_out_of F lv BB ≠ loads_out lv !!! BB
       ∨ new_in_of F lv BB ≠ loads_in lv !!! BB) ∧
    (changed' = false → lv' = lv).
Proof.
  unfold visit_block, new_in_of, new_out_of.
  set (new_out := union_of_in (loads_in lv) (successors F BB)).
  destruct lv as [lin lout]; simpl in *.
  destruct (decide (new_out ≠ lout !!! BB)) as [Hout | Hout].
  - rewrite lookup_total_insert_eq.
    destruct (decide (transfer (instrs F BB) new_out ≠ lin !!! BB))
      as [Hin | Hin]; eexists _, _; (split; [reflexivity |]); simpl.
    + split; [intros B; rewrite lookup_total_insert; by repeat case_decide |].
      split; [intros B; rewrite lookup_total_insert; by repeat case_decide |].
      split; [naive_solver | done].
    + apply dec_stable in Hin.
      split; [intros B; rewrite lookup_total_insert; by repeat case_decide |].
      split; [intros B; case_decide; by subst |].
      split; [naive_solver | done].
  - apply dec_stable in Hout. rewrite <- Hout.
    destruct (decide (transfer (instrs F BB) new_out ≠ lin !!! BB))
      as [Hin | Hin]; eexists _, _; (split; [reflexivity |]); simpl.
    + split; [intros B; case_decide; by subst |].
      split; [intros B; rewrite lookup_total_insert; by repeat case_decide |].
      split; [naive_solver | done].
    + apply dec_stable in Hin.
      split; [intros B; case_decide; by subst |].
      split; [intros B; case_decide; by subst |].
      split; [| done]. split; [tauto |]. intros [? | [? | ?]]; done.
Qed.

Global Instance liveness_le_refl : Reflexive liveness_le.
Proof. by intros lv B. Qed.

Global Instance liveness_le_trans : Transitive liveness_le.
Proof.
  intros lv1 lv2 lv3 H12 H23 B.
  destruct (H12 B), (H23 B). split; set_solver.
Qed.

Lemma visit_block_ascending BB changed lv :
  ascending F lv →
  ascending F (visit_block F BB (changed, lv)).2 ∧
  liveness_le lv (visit_block F BB (changed, lv)).2.
Proof.
  intros Hasc.
  destruct (visit_block_spec BB changed lv)
    as (changed' & lv' & -> & Hout & Hin & _); simpl.
  assert (liveness_le lv lv') as Hle.
  { intros B. rewrite Hout, Hin. destruct (Hasc B) as [Ho Hi].
    case_decide as HB; [subst B | done]. split; [| done].
    etrans; [exact Hi |]. by apply transfer_mono. }
  split; [| done]. intros B. rewrite Hout. split.
  - etrans; [| apply union_of_in_mono; intros s _; apply (Hle s)].
    case_decide as HB; [by subst B | apply (Hasc B)].
  - rewrite Hin. case_decide as HB; [by subst B | apply (Hasc B)].
Qed.

Lemma visit_block_bounded L BB changed lv :
  load_ptrs_of (instrs F BB) ⊆ L → bounded L lv →
  bounded L (visit_block F BB (changed, lv)).2.
Proof.
  intros HL Hb.
  destruct (visit_block_spec BB changed lv)
    as (changed' & lv' & -> & Hout & Hin & _); simpl.
  assert (new_out_of F lv BB ⊆ L) as HoutL.
  { intros x (s & _ & Hx)%elem_of_union_of_in.
    destruct (Hb s) as [Hi _]. by apply Hi. }
  intros B. rewrite Hout, Hin.
  case_decide; [| apply Hb]. split; [| done].
  unfold new_in_of.
  pose proof (transfer_bound (instrs F BB) (new_out_of F lv BB)).
  set_solver.
Qed.

Lemma visit_block_below (order : list BasicBlock) BB changed lv fp :
  BB ∈ order → post_fixpoint F order fp → liveness_le lv fp →
  liveness_le (visit_block F BB (changed, lv)).2 fp.
Proof.
  intros HBB Hfp Hle.
  destruct (visit_block_spec BB changed lv)
    as (changed' & lv' & -> & Hout & Hin & _); simpl.
  assert (new_out_of F lv BB ⊆ loads_out fp !!! BB) as Hno.
  { etrans; [| apply (Hfp BB HBB)].
    apply union_of_in_mono. intros s _. apply (Hle s). }
  intros B. rewrite Hout, Hin.
  case_decide as HB; [subst B | apply Hle]. split; [| done].
  etrans; [| apply (Hfp BB HBB)]. by apply transfer_mono.
Qed.

End Solver.

(** ** Passes and the [while] loop *)

Section Iteration.
Variable F : Function.

Lemma visits_cons BB l st :
  visits F (BB :: l) st = visits F l (visit_block F BB st).
Proof. reflexivity. Qed.

Lemma visits_invariant (P : Liveness → Prop) (l : list BasicBlock) :
  (∀ BB changed lv, BB ∈ l → P lv → P (visit_block F BB (changed, lv)).2) →
  ∀ st, P st.2 → P (visits F l st).2.
Proof.
  induction l as [| BB l IH]; intros Hstep [changed lv] HP; [done |].
  simpl. apply IH.
  - intros B c lv' HB. apply Hstep. by right.
  - apply Hstep; [by left | done].
Qed.

Lemma solve_invariant (P : Liveness → Prop) (order : list BasicBlock) :
  (∀ BB changed lv, BB ∈ order → P lv → P (visit_block F BB (changed, lv)).2) →
  ∀ fuel lv lv', P lv → solve fuel F order lv = Some lv' → P lv'.
Proof.
  intros Hstep. induction fuel as [| fuel IH]; intros lv lv' HP; [done |].
  simpl. pose proof (visits_invariant P order Hstep (false, lv) HP) as HP1.
  change (P (solver_pass F order lv).2) in HP1.
  destruct (solver_pass F order lv) as [[] lv1]; simpl in HP1.
  - intros Hsolve. by eapply IH.
  - by intros [= <-].
Qed.

(** A sequence of visits F that leaves the flag [false] changed nothing, and
    the equations hold at every block it visited. *)
Lemma visits_unchanged l changed lv changed' lv' :
  visits F l (changed, lv) = (changed', lv') → changed' = false →
  changed = false ∧ lv' = lv ∧ ∀ B, B ∈ l → fixpoint_at F lv B.
Proof.
  revert changed lv. induction l as [| BB l IH]; intros changed lv.
  - intros [= -> ->] Hc. split; [done |]. split; [done |].
    by intros B ?%elem_of_nil.
  - rewrite visits_cons. destruct (visit_block_spec F BB changed lv)
      as (c1 & lv1 & -> & Hout & Hin & Hch & Hsame).
    intros Hrest Hfalse.
    destruct (IH _ _ Hrest Hfalse) as (-> & -> & Hfix).
    specialize (Hsame eq_refl). subst lv1.
    assert (changed = false ∧ new_out_of F lv BB = loads_out lv !!! BB ∧
            new_in_of F lv BB = loads_in lv !!! BB) as (-> & Ho & Hi).
    { destruct changed; [naive_solver |]. split; [done |].
      split; apply dec_stable; naive_solver. }
    split; [done |]. split; [done |].
    intros B [-> | HB]%elem_of_cons; [| by apply Hfix].
    split; [done |]. rewrite <- Hi. unfold new_in_of. by rewrite Ho.
Qed.

Lemma solve_fixpoint fuel order lv lv' :
  solve fuel F order lv = Some lv' →
  solver_pass F order lv' = (false, lv') ∧ ∀ B, B ∈ order → fixpoint_at F lv' B.
Proof.
  revert lv. induction fuel as [| fuel IH]; intros lv; [done |]. simpl.
  destruct (solver_pass F order lv) as [[] lv1] eqn:Hpass; [apply IH |].
  intros [= <-].
  destruct (visits_unchanged _ _ _ _ _ Hpass eq_refl) as (_ & -> & Hfix).
  by split.
Qed.

Lemma weight_mono lv lv' B : liveness_le lv lv' → weight lv B ≤ weight lv' B.
Proof.
  intros Hle. destruct (Hle B) as [Hi Ho]. unfold weight.
  apply subseteq_size in Hi, Ho. lia.
Qed.

Lemma weight_bounded L lv B : bounded L lv → weight lv B ≤ 2 * size L.
Proof.
  intros Hb. destruct (Hb B) as [Hi Ho]. unfold weight.
  apply subseteq_size in Hi, Ho. lia.
Qed.

Lemma total_weight_bounded L order lv :
  bounded L lv → total_weight order lv ≤ 2 * length order * size L.
Proof.
  intros Hb. unfold total_weight.
  induction order as [| B order IH]; simpl; [lia |].
  pose proof (weight_bounded L lv B Hb). lia.
Qed.

Lemma total_weight_mono order lv lv' :
  liveness_le lv lv' → total_weight order lv ≤ total_weight order lv'.
Proof.
  intros Hle. unfold total_weight.
  induction order as [| B order IH]; simpl; [lia |].
  pose proof (weight_mono lv lv' B Hle). lia.
Qed.

Lemma total_weight_strict order lv lv' B :
  liveness_le lv lv' → B ∈ order → weight lv B < weight lv' B →
  total_weight order lv < total_weight order lv'.
Proof.
  intros Hle HB Hlt. unfold total_weight.
  induction order as [| B' order IH]; [by apply elem_of_nil in HB |]. simpl.
  apply elem_of_cons in HB as [-> | HB].
  - pose proof (total_weight_mono order lv lv' Hle).
    unfold total_weight in *. lia.
  - pose proof (weight_mono lv lv' B' Hle). specialize (IH HB). lia.
Qed.

(** A sequence of visits F only enlarges the sets, and raises the flag only
    when some set became strictly larger. *)
Lemma visits_grow l changed lv :
  ascending F lv →
  ascending F (visits F l (changed, lv)).2 ∧
  liveness_le lv (visits F l (changed, lv)).2 ∧
  ((visits F l (changed, lv)).1 = true →
   changed = true ∨
   ∃ B, B ∈ l ∧ weight lv B < weight (visits F l (changed, lv)).2 B).
Proof.
  revert changed lv. induction l as [| BB l IH]; intros changed lv Hasc.
  - split; [done |]. split; [done |]. by left.
  - rewrite visits_cons.
    destruct (visit_block_ascending F BB changed lv Hasc) as [Hasc1 Hle1].
    destruct (visit_block_spec F BB changed lv)
      as (c1 & lv1 & Heq & Hout & Hin & Hch & _).
    rewrite Heq in *. simpl in Hasc1, Hle1.
    destruct (IH c1 lv1 Hasc1) as (Hasc' & Hle' & Hflag).
    split; [done |]. split; [by etrans |].
    intros Htrue. destruct (Hflag Htrue) as [-> | (B & HB & Hlt)].
    + destruct (proj1 Hch eq_refl) as [? | Hne]; [by left |]. right.
      exists BB. split; [by left |].
      eapply Nat.lt_le_trans; [| by apply weight_mono].
      destruct (Hasc BB) as [Ho Hi], (Hle1 BB) as [Hi1 Ho1].
      pose proof (Hout BB) as HoBB. pose proof (Hin BB) as HiBB.
      rewrite decide_True in HoBB, HiBB by done.
      unfold weight. rewrite HoBB, HiBB.
      rewrite HiBB in Hi1. rewrite HoBB in Ho1.
      destruct Hne as [Hne | Hne].
      * assert (loads_out lv !!! BB ⊂ new_out_of F lv BB) as Hlt
          by (split; [done | set_solver]).
        apply subset_size in Hlt. apply subseteq_size in Hi1. lia.
      * assert (loads_in lv !!! BB ⊂ new_in_of F lv BB) as Hlt
          by (split; [done | set_solver]).
        apply subset_size in Hlt. apply subseteq_size in Ho1. lia.
    + right. exists B. split; [by right |].
      eapply Nat.le_lt_trans; [| exact Hlt]. by apply weight_mono.
Qed.

(** The initial state: every set is empty. *)
Lemma init_liveness_empty order B :
  loads_in (init_liveness order) !!! B = ∅ ∧
  loads_out (init_liveness order) !!! B = ∅.
Proof.
  unfold init_liveness.
  assert (∀ lv, (loads_in lv !!! B = ∅ ∧ loads_out lv !!! B = ∅) →
            let lv' :=
              foldl (λ lv BB, mkLiveness (<[BB := ∅]> (loads_in lv))
                                         (<[BB := ∅]> (loads_out lv)))
                    lv order in
            loads_in lv' !!! B = ∅ ∧ loads_out lv' !!! B = ∅) as Hgen.
  { induction order as [| BB order IH]; intros lv Hlv; [done |].
    simpl. apply IH. simpl. rewrite !lookup_total_insert.
    case_decide; [done | exact Hlv]. }
  apply Hgen. simpl. by rewrite !lookup_total_empty.
Qed.

Lemma init_liveness_ascending order : ascending F (init_liveness order).
Proof.
  intros B. destruct (init_liveness_empty order B) as [-> ->]. set_solver.
Qed.

Lemma init_liveness_least order lv : liveness_le (init_liveness order) lv.
Proof.
  intros B. destruct (init_liveness_empty order B) as [-> ->]. set_solver.
Qed.

Lemma init_liveness_bounded order L : bounded L (init_liveness order).
Proof.
  intros B. destruct (init_liveness_empty order B) as [-> ->]. set_solver.
Qed.

Lemma load_ptrs_block order BB :
  BB ∈ order → load_ptrs_of (instrs F BB) ⊆ load_ptrs F order.
Proof.
  intros HBB ptr (i & vol & Hi)%elem_of_load_ptrs_of.
  apply elem_of_load_ptrs. eauto.
Qed.

(** Each pass that asks for another one makes the total size of the sets
    grow, and that total is bounded. *)
Lemma solve_returns_from order fuel lv :
  ascending F lv → bounded (load_ptrs F order) lv →
  2 * length order * size (load_ptrs F order) < fuel + total_weight order lv →
  is_Some (solve fuel F order lv).
Proof.
  revert lv. induction fuel as [| fuel IH]; intros lv Hasc Hb Hfuel.
  - pose proof (total_weight_bounded _ order lv Hb). lia.
  - simpl. change (solver_pass F order lv) with (visits F order (false, lv)).
    destruct (visits_grow order false lv Hasc) as (Hasc1 & Hle1 & Hflag).
    pose proof (visits_invariant (bounded (load_ptrs F order)) order) as Hb1.
    specialize (Hb1 (λ BB c lv0 HBB, visit_block_bounded F _ BB c lv0
                                      (load_ptrs_block order BB HBB))
                    (false, lv) Hb).
    destruct (visits F order (false, lv)) as [[] lv1]; simpl in *; [| eauto].
    apply IH; [done | done |].
    destruct (Hflag eq_refl) as [? | (B & HB & Hlt)]; [done |].
    pose proof (total_weight_strict order lv lv1 B Hle1 HB Hlt). lia.
Qed.

Lemma solve_returns order :
  is_Some (solve (solve_fuel F order) F order (init_liveness order)).
Proof.
  apply solve_returns_from.
  - apply init_liveness_ascending.
  - apply init_liveness_bounded.
  - unfold solve_fuel. lia.
Qed.
End Iteration.

(** * Properties of the marker and eraser *)

Lemma is_dead_store_head Instr body X :
  is_dead_store (Instr :: body) X 0 ↔
  ∃ val ptr vol, Instr = StoreInst val ptr vol ∧ ptr ∉ transfer body X.
Proof.
  unfold is_dead_store; simpl. rewrite drop_0. split.
  - destruct Instr as [| val ptr vol |]; [done | eauto | done].
  - by intros (val & ptr & vol & -> & ?).
Qed.

Lemma is_dead_store_tail Instr body X i :
  is_dead_store (Instr :: body) X (S i) ↔ is_dead_store body X i.
Proof. reflexivity. Qed.

Lemma mark_instrs_local BB l lout dead :
  (foldl (λ st iI, mark_instr BB iI st) (lout, dead) l).1 !!! BB =
    (foldl (λ st iI, mark_local BB iI st) (lout !!! BB, dead) l).1 ∧
  (foldl (λ st iI, mark_instr BB iI st) (lout, dead) l).2 =
    (foldl (λ st iI, mark_local BB iI st) (lout !!! BB, dead) l).2 ∧
  ∀ B, B ≠ BB →
       (foldl (λ st iI, mark_instr BB iI st) (lout, dead) l).1 !!! B
         = lout !!! B.
Proof.
  revert lout dead.
  induction l as [| [i Instr] l IH]; intros lout dead; [done |].
  cbn [foldl]. unfold mark_instr at 2 4 6, mark_local at 2 4. cbn [fst snd].
  destruct Instr as [ptr vol | val ptr vol |].
  - destruct (IH (<[BB := {[ptr]} ∪ lout !!! BB]> lout) dead) as (H1 & H2 & H3).
    rewrite lookup_total_insert_eq in H1, H2.
    split; [done |]. split; [done |]. intros B HB.
    rewrite H3 by done. by rewrite lookup_total_insert_ne.
  - destruct (decide (ptr ∈ lout !!! BB)).
    + destruct (IH (<[BB := lout !!! BB ∖ {[ptr]}]> lout) dead)
        as (H1 & H2 & H3).
      rewrite lookup_total_insert_eq in H1, H2.
      split; [done |]. split; [done |]. intros B HB.
      rewrite H3 by done. by rewrite lookup_total_insert_ne.
    + apply IH.
  - apply IH.
Qed.

Lemma mark_local_scan BB body k X dead :
  ∃ new,
    foldl (λ st iI, mark_local BB iI st) (X, dead) (reverse (numbered k body))
      = (transfer body X, dead ++ new) ∧
    ∀ r, r ∈ new ↔ ∃ i, r = (BB, k + i) ∧ is_dead_store body X i.
Proof.
  revert k. induction body as [| Instr body IH]; intros k.
  - exists []. rewrite app_nil_r. split; [done |]. intros r. split.
    + by intros ?%elem_of_nil.
    + by intros (i & _ & ?).
  - destruct (IH (S k)) as (new & Hscan & Hnew).
    cbn [numbered]. rewrite reverse_cons, foldl_snoc, Hscan, transfer_cons.
    assert (∀ r, r ∈ new ↔
                 ∃ i, r = (BB, k + S i) ∧ is_dead_store (Instr :: body) X (S i))
      as Htail.
    { intros r. rewrite Hnew. f_equiv. intros i.
      by rewrite is_dead_store_tail, Nat.add_succ_r. }
    assert (∀ new' : list InstrRef,
               (∀ r, r ∈ new' ↔
                     r ∈ new ∨
                     (r = (BB, k) ∧ is_dead_store (Instr :: body) X 0)) →
               ∀ r, r ∈ new' ↔
                    ∃ i, r = (BB, k + i) ∧ is_dead_store (Instr :: body) X i)
      as Hall.
    { intros new' Hnew' r. rewrite Hnew', Htail. split.
      - intros [(i & ? & ?) | [? ?]]; [by exists (S i) |].
        exists 0. by rewrite Nat.add_0_r.
      - intros ([| i] & Hr & Hd); [right | left; eauto].
        by rewrite Nat.add_0_r in Hr. }
    unfold mark_local; cbn [fst snd].
    destruct Instr as [ptr vol | val ptr vol |].
    + exists new. split; [done |]. apply Hall. intros r.
      rewrite is_dead_store_head. naive_solver.
    + rewrite transfer_instr_store.
      destruct (decide (ptr ∈ transfer body X)) as [Hlive | Hdead].
      * exists new. split; [done |]. apply Hall. intros r.
        rewrite is_dead_store_head. naive_solver.
      * exists (new ++ [(BB, k)]). split.
        { rewrite app_assoc. f_equal. set_solver. }
        apply Hall. intros r.
        rewrite elem_of_app, list_elem_of_singleton, is_dead_store_head.
        naive_solver.
    + exists new. split; [done |]. apply Hall. intros r.
      rewrite is_dead_store_head. naive_solver.
Qed.

Lemma mark_block_spec F BB lout dead :
  ∃ lout' new,
    mark_block F BB (lout, dead) = (lout', dead ++ new) ∧
    (∀ B, B ≠ BB → lout' !!! B = lout !!! B) ∧
    (∀ r, r ∈ new ↔
          ∃ i, r = (BB, i) ∧ is_dead_store (instrs F BB) (lout !!! BB) i).
Proof.
  unfold mark_block.
  destruct (mark_instrs_local BB (reverse (numbered 0 (instrs F BB))) lout dead)
    as (_ & Hdead & Hother).
  destruct (mark_local_scan BB (instrs F BB) 0 (lout !!! BB) dead)
    as (new & Hscan & Hnew).
  rewrite Hscan in Hdead. simpl in Hdead.
  destruct (foldl _ (lout, dead) _) as [lout' dead']; simpl in *. subst dead'.
  exists lout', new. done.
Qed.

(** The marked instructions: the dead stores of the blocks of [order], each
    judged against the converged [loads_out] of its own block. *)
Lemma mark_spec F (order : list BasicBlock) lout :
  NoDup order →
  ∀ r, r ∈ (mark F order lout).2 ↔
       ∃ B i, r = (B, i) ∧ B ∈ order ∧
              is_dead_store (instrs F B) (lout !!! B) i.
Proof.
  unfold mark. intros Hnd.
  assert (∀ lout0 dead0,
             (∀ B, B ∈ order → lout0 !!! B = lout !!! B) →
             ∃ new,
               (foldl (λ st BB, mark_block F BB st) (lout0, dead0) order).2
                 = dead0 ++ new ∧
               ∀ r, r ∈ new ↔
                    ∃ B i, r = (B, i) ∧ B ∈ order ∧
                           is_dead_store (instrs F B) (lout !!! B) i) as Hgen.
  { induction Hnd as [| BB order HBB Hnd IH]; intros lout0 dead0 Hagree.
    - exists []. rewrite app_nil_r. split; [done |]. intros r. split.
      + by intros ?%elem_of_nil.
      + by intros (B & i & _ & ?%elem_of_nil & _).
    - cbn [foldl].
      destruct (mark_block_spec F BB lout0 dead0)
        as (lout1 & new1 & -> & Hother & Hnew1).
      destruct (IH lout1 (dead0 ++ new1)) as (new2 & -> & Hnew2).
      { intros B HB. rewrite Hother by (intros ->; done).
        apply Hagree. by right. }
      exists (new1 ++ new2). split; [by rewrite app_assoc |].
      intros r. rewrite elem_of_app, Hnew1, Hnew2.
      rewrite (Hagree BB) by (by left). split.
      + intros [(i & -> & ?) | (B & i & -> & ? & ?)].
        * exists BB, i. split; [done |]. split; [by left | done].
        * exists B, i. split; [done |]. split; [by right | done].
      + intros (B & i & -> & [-> | ?]%elem_of_cons & ?);
          [left | right]; eauto. }
  destruct (Hgen lout []) as (new & -> & Hnew); [done |]. done.
Qed.

(** ** Erasing *)

Lemma keep_unmarked_prune BB (toErase : list InstrRef) body X :
  (∀ i, (BB, i) ∈ toErase ↔ is_dead_store body X i) →
  keep_unmarked BB toErase body = prune body X.
Proof.
  unfold keep_unmarked.
  assert (∀ k,
             (∀ i, (BB, k + i) ∈ toErase ↔ is_dead_store body X i) →
             (filter (λ iI : nat * Instruction, (BB, iI.1) ∉ toErase)
                     (numbered k body)).*2 = prune body X) as Hgen.
  { induction body as [| Instr body IH]; intros k Hspec; [done |].
    cbn [numbered prune]. rewrite filter_cons. cbn [fst].
    assert ((filter (λ iI : nat * Instruction, (BB, iI.1) ∉ toErase)
                    (numbered (S k) body)).*2 = prune body X) as Htl.
    { apply IH. intros i. rewrite <- is_dead_store_tail, <- Hspec.
      by rewrite Nat.add_succ_r. }
    pose proof (Hspec 0) as H0. rewrite Nat.add_0_r, is_dead_store_head in H0.
    destruct (decide ((BB, k) ∉ toErase)) as [Hkeep | Hdrop].
    - rewrite fmap_cons, Htl. cbn [snd].
      destruct Instr as [| val ptr vol |]; [done | | done].
      rewrite decide_True; [done |].
      destruct (decide (ptr ∈ transfer body X)); [done |].
      exfalso. apply Hkeep, H0. eauto.
    - apply dec_stable, H0 in Hdrop as (val & ptr & vol & -> & Hdead).
      by rewrite decide_False. }
  intros Hspec. by apply Hgen.
Qed.

Lemma keep_unmarked_id BB (toErase : list InstrRef) body :
  (∀ i, (BB, i) ∉ toErase) → keep_unmarked BB toErase body = body.
Proof.
  intros Hnone. unfold keep_unmarked. generalize 0.
  induction body as [| Instr body IH]; intros k; [done |].
  cbn [numbered]. rewrite filter_cons, decide_True by apply Hnone.
  rewrite fmap_cons. by rewrite IH.
Qed.

(** What [keep_unmarked] keeps and what it drops. *)
Lemma keep_unmarked_erasure BB (toErase : list InstrRef) body :
  erasure (λ i, (BB, i) ∈ toErase) 0 body (keep_unmarked BB toErase body).
Proof.
  unfold keep_unmarked. generalize 0.
  induction body as [| Instr body IH]; intros k; [constructor |].
  cbn [numbered]. rewrite filter_cons. cbn [fst].
  destruct (decide ((BB, k) ∉ toErase)) as [Hkeep | Hdrop].
  - rewrite fmap_cons. cbn [snd]. by apply erasure_keep.
  - apply erasure_drop; [by apply dec_stable | done].
Qed.

(** An instruction whose index is not erased is still in the block, no
    further down than it was. *)
Lemma erasure_kept gone k body body' i Instr :
  erasure gone k body body' →
  body !! i = Some Instr → ¬ gone (k + i) →
  ∃ i', i' ≤ i ∧ body' !! i' = Some Instr.
Proof.
  intros Her. revert i.
  induction Her as [k | k J body body' Hk _ IH | k J body body' Hk _ IH];
    intros i Hi Hnot.
  - by rewrite lookup_nil in Hi.
  - destruct i as [| i]; simpl in Hi.
    + exists 0. split; [lia | done].
    + destruct (IH i Hi) as (i' & Hle & Hi').
      { by rewrite Nat.add_succ_r in Hnot. }
      exists (S i'). split; [lia | done].
  - destruct i as [| i]; simpl in Hi.
    + by rewrite Nat.add_0_r in Hnot.
    + destruct (IH i Hi) as (i' & Hle & Hi').
      { by rewrite Nat.add_succ_r in Hnot. }
      exists i'. split; [lia | done].
Qed.

(** Every instruction of the block after erasing comes from an index that
    is not erased. *)
Lemma erasure_from gone k body body' j Instr :
  erasure gone k body body' →
  body' !! j = Some Instr →
  ∃ i, body !! i = Some Instr ∧ ¬ gone (k + i).
Proof.
  intros Her. revert j.
  induction Her as [k | k J body body' Hk _ IH | k J body body' Hk _ IH];
    intros j Hj.
  - by rewrite lookup_nil in Hj.
  - destruct j as [| j]; simpl in Hj.
    + exists 0. by rewrite Nat.add_0_r.
    + destruct (IH j Hj) as (i & Hi & Hnot). exists (S i).
      by rewrite Nat.add_succ_r.
  - destruct (IH j Hj) as (i & Hi & Hnot). exists (S i).
    by rewrite Nat.add_succ_r.
Qed.

(** Erasing shortens the block by the number of indices erased; in
    particular a block with an erased index is strictly shorter. *)
Lemma erasure_gone gone k body body' i :
  erasure gone k body body' →
  i < length body → gone (k + i) → length body' < length body.
Proof.
  intros Her. revert i.
  assert (∀ k body body', erasure gone k body body' →
                          length body' ≤ length body) as Hle.
  { clear. intros k body body'. induction 1; simpl; lia. }
  induction Her as [k | k J body body' Hk Her IH | k J body body' Hk Her _];
    intros i Hi Hgone; simpl in *; [lia | |].
  - destruct i as [| i]; [by rewrite Nat.add_0_r in Hgone |].
    rewrite Nat.add_succ_r in Hgone.
    assert (i < length body) as Hi' by lia.
    specialize (IH i Hi' Hgone). lia.
  - specialize (Hle _ _ _ Her). lia.
Qed.

Lemma transfer_prune body X : transfer (prune body X) X = transfer body X.
Proof.
  induction body as [| Instr body IH]; [done |].
  rewrite transfer_cons. destruct Instr as [ptr vol | val ptr vol |]; simpl.
  - by rewrite transfer_cons, IH.
  - destruct (decide (ptr ∈ transfer body X)).
    + by rewrite transfer_cons, IH, !transfer_instr_store.
    + rewrite IH. set_solver.
  - by rewrite transfer_cons, IH.
Qed.

Lemma prune_no_dead_store body X i : ¬ is_dead_store (prune body X) X i.
Proof.
  revert i. induction body as [| Instr body IH]; intros i.
  { unfold is_dead_store. destruct i; simpl; tauto. }
  assert (∀ J, (∀ val ptr vol, J = StoreInst val ptr vol →
                               ptr ∈ transfer body X) →
               ¬ is_dead_store (J :: prune body X) X i) as Hkeep.
  { intros J HJ. destruct i as [| i]; [| rewrite is_dead_store_tail; apply IH].
    rewrite is_dead_store_head, transfer_prune.
    intros (val & ptr & vol & -> & Hdead). by eapply Hdead, HJ. }
  destruct Instr as [ptr vol | val ptr vol |]; simpl.
  - by apply Hkeep.
  - destruct (decide (ptr ∈ transfer body X)); [| apply IH].
    apply Hkeep. by intros ? ? ? [= _ <- _].
  - by apply Hkeep.
Qed.

Lemma transfer_prune_above body X Y :
  transfer body Y ⊆ transfer (prune body X) Y.
Proof.
  induction body as [| Instr body IH]; [done |].
  rewrite transfer_cons.
  destruct Instr as [ptr vol | val ptr vol |]; cbn [prune].
  - rewrite transfer_cons. by apply transfer_instr_mono.
  - destruct (decide (ptr ∈ transfer body X)).
    + rewrite transfer_cons. by apply transfer_instr_mono.
    + rewrite transfer_instr_store. set_solver.
  - rewrite transfer_cons. by apply transfer_instr_mono.
Qed.

(** * The pass as a whole *)

Lemma dead_stores_analysis F :
  ∃ order lv toErase,
    dead_stores F = Some toErase ∧ analysis F order lv toErase.
Proof.
  unfold dead_stores.
  destruct (dfs_order_spec F) as (visited & order & -> & _ & Hnd & Hreach & _).
  destruct (solve_returns F order) as [lv Hsolve]. rewrite Hsolve.
  exists order, lv, (mark F order (loads_out lv)).2. split; [done |].
  split; [done | done | | |].
  - by apply (solve_fixpoint F _ _ _ _ Hsolve).
  - intros fp Hfp.
    apply (solve_invariant F (λ lv, liveness_le lv fp) order)
      with (3 := Hsolve).
    + intros BB c lv0 HBB Hle. by apply (visit_block_below F order).
    + apply init_liveness_least.
  - intros B i. rewrite (mark_spec F order (loads_out lv) Hnd). split.
    + by intros (B' & i' & [= <- <-] & ? & ?).
    + intros [? ?]. eauto.
Qed.

Lemma runOnFunction_analysis F :
  ∃ order lv toErase,
    runOnFunction F = Some (erase_all F toErase, bool_decide (toErase ≠ [])) ∧
    dead_stores F = Some toErase ∧ analysis F order lv toErase.
Proof.
  destruct (dead_stores_analysis F) as (order & lv & toErase & Hdead & Han).
  exists order, lv, toErase. unfold runOnFunction. by rewrite Hdead.
Qed.

Lemma successors_erase_all F toErase B :
  successors (erase_all F toErase) B = successors F B.
Proof.
  unfold successors, erase_all; simpl. rewrite map_lookup_imap.
  by destruct (blocks F !! B).
Qed.

Lemma instrs_erase_all F toErase B :
  instrs (erase_all F toErase) B = keep_unmarked B toErase (instrs F B).
Proof.
  unfold instrs, erase_all; simpl. rewrite map_lookup_imap.
  by destruct (blocks F !! B).
Qed.

Lemma erase_all_erases_exactly F toErase :
  erases_exactly F (erase_all F toErase) toErase.
Proof.
  intros B. rewrite instrs_erase_all. apply keep_unmarked_erasure.
Qed.

Lemma erase_all_unmarked F toErase B :
  (∀ i, (B, i) ∉ toErase) →
  blocks (erase_all F toErase) !! B = blocks F !! B.
Proof.
  intros Hnone. unfold erase_all; simpl. rewrite map_lookup_imap.
  destruct (blocks F !! B) as [[body ss] |]; [| done]. simpl.
  by rewrite keep_unmarked_id.
Qed.

Lemma erase_all_nil F : erase_all F [] = F.
Proof.
  destruct F as [e bs]. unfold erase_all; simpl. f_equal.
  apply map_eq. intros B.
  apply (erase_all_unmarked (mkFunction e bs) [] B).
  intros i. apply not_elem_of_nil.
Qed.

(** Any solution of the equations on a set of blocks closed under successors
    contains, at every program point, the locations that may be read. *)
Lemma fixpoint_sound F (order : list BasicBlock) lv :
  (∀ B s, B ∈ order → s ∈ successors F B → s ∈ order) →
  (∀ B, B ∈ order → fixpoint_at F lv B) →
  ∀ L B k, may_read F L B k → B ∈ order →
           L ∈ transfer (drop k (instrs F B)) (loads_out lv !!! B).
Proof.
  intros Hclosed Hfix L B k.
  induction 1 as [B k vol Hk | B k Instr Hk Hns _ IH | B k S -> HS _ IH];
    intros HB.
  - rewrite (drop_S _ _ _ Hk), transfer_cons. simpl. set_solver.
  - rewrite (drop_S _ _ _ Hk), transfer_cons. specialize (IH HB).
    destruct Instr as [ptr vol | val ptr vol |]; simpl; [set_solver | | done].
    assert (ptr ≠ L) by (intros ->; by eapply Hns).
    case_decide; set_solver.
  - rewrite drop_all, transfer_nil.
    destruct (Hfix B HB) as [-> _]. apply elem_of_union_of_in.
    exists S. split; [done |].
    assert (S ∈ order) as HSo by by eapply Hclosed.
    destruct (Hfix S HSo) as [_ ->]. by apply IH.
Qed.

Lemma reachable_closed F B s :
  reachable F (entry F) B → s ∈ successors F B → reachable F (entry F) s.
Proof. intros HB Hs. eapply rtc_r; [exact HB | exact Hs]. Qed.

(** C1.  The pass returns a function that is the given one without exactly
    the instructions collected in [toErase]: every block keeps, in order, the
    instructions at the other indices and loses those at the collected ones.
    Every instruction so deleted is a store, in a block reachable from the
    entry, to a location that no execution path from the point just after the
    store reads before storing to it again. *)
Theorem no_false_elimination (F : Function) :
  ∃ toErase F' changed,
    dead_stores F = Some toErase ∧
    runOnFunction F = Some (F', changed) ∧
    erases_exactly F F' toErase ∧
    ∀ B i, (B, i) ∈ toErase →
           reachable F (entry F) B ∧
           ∃ val ptr vol,
             instrs F B !! i = Some (StoreInst val ptr vol) ∧
             ¬ may_read F ptr B (S i).
Proof.
  destruct (runOnFunction_analysis F)
    as (order & lv & toErase & Hrun & Hds & [Hnd Hreach Hfix _ Hdead]).
  exists toErase, (erase_all F toErase), (bool_decide (toErase ≠ [])).
  split; [done |]. split; [done |].
  split; [apply erase_all_erases_exactly |].
  intros B i [HB Hd]%Hdead.
  split; [by apply Hreach |].
  unfold is_dead_store in Hd.
  destruct (instrs F B !! i) as [[| val ptr vol |] |] eqn:Hi; try done.
  exists val, ptr, vol. split; [done |]. intros Hread. apply Hd.
  eapply fixpoint_sound; [| exact Hfix | exact Hread | exact HB].
  intros B' s HB' Hs. apply Hreach. eapply reachable_closed; [| exact Hs].
  by apply Hreach.
Qed.

Lemma transfer_refines body X : transfer body X = spec_transfer body X.
Proof.
  induction body as [| Instr body IH]; [done |].
  rewrite transfer_cons, IH. simpl.
  destruct Instr as [ptr vol | val ptr vol |]; simpl; [set_solver | | done].
  case_decide; set_solver.
Qed.

Lemma union_of_in_refines lin ss : union_of_in lin ss = spec_union lin ss.
Proof.
  apply set_eq. intros x. unfold spec_union.
  rewrite elem_of_union_of_in, elem_of_union_list. split.
  - intros (s & Hs & Hx). exists (lin !!! s). split; [| done].
    apply list_elem_of_fmap. eauto.
  - intros (X & (s & -> & Hs)%list_elem_of_fmap & Hx). eauto.
Qed.

Lemma solve_passes F order fuel lv0 lv :
  solve fuel F order lv0 = Some lv →
  ∃ n, lv = Nat.iter n (λ lv, (solver_pass F order lv).2) lv0.
Proof.
  revert lv0. induction fuel as [| fuel IH]; intros lv0; [done |]. simpl.
  destruct (solver_pass F order lv0) as [[] lv1] eqn:Hpass.
  - intros (n & ->)%IH. exists (S n). by rewrite Nat.iter_succ_r, Hpass.
  - intros [= <-]. exists 1. simpl. by rewrite Hpass.
Qed.

Lemma passes_invariant F order n :
  ascending F (passes F order n) ∧
  bounded (load_ptrs F order) (passes F order n).
Proof.
  induction n as [| n [Hasc Hb]].
  - split; [apply init_liveness_ascending | apply init_liveness_bounded].
  - unfold passes in *. rewrite Nat.iter_succ. split.
    + by apply (visits_grow F order false).
    + apply (visits_invariant F (bounded (load_ptrs F order)) order);
        [| done].
      intros BB c lv HBB. by apply visit_block_bounded, load_ptrs_block.
Qed.

(** C2.  When the [while] loop of the solver terminates, at every block of
    the order [loads_out] is the union of [loads_in] over the successors
    (empty without successors) and [loads_in] is the backward transfer of
    [loads_out] through the block's instructions; one more pass sets no flag
    and changes no set. *)
Theorem solver_fixed_point (F : Function) (order : list BasicBlock)
    (fuel : nat) (lv0 lv : Liveness) :
  solve fuel F order lv0 = Some lv →
  (∀ B, B ∈ order →
        loads_out lv !!! B = spec_union (loads_in lv) (successors F B) ∧
        (successors F B = [] → loads_out lv !!! B = ∅) ∧
        loads_in lv !!! B = spec_transfer (instrs F B) (loads_out lv !!! B)) ∧
  solver_pass F order lv = (false, lv).
Proof.
  intros Hsolve. destruct (solve_fixpoint F _ _ _ _ Hsolve) as [Hpass Hfix].
  split; [| done]. intros B HB. destruct (Hfix B HB) as [Hout Hin].
  rewrite union_of_in_refines in Hout. rewrite transfer_refines in Hin.
  split; [done |]. split; [| done]. intros Hnil. by rewrite Hout, Hnil.
Qed.

(** C8.  The iteration of the solver terminates on every function and every
    order of blocks, within [2 * |order| * |locations loaded| + 1] passes:
    from one pass to the next every set can only grow, and every set stays
    within the locations loaded in the blocks of the order. *)
Theorem solver_terminates (F : Function) (order : list BasicBlock) :
  (∃ lv, solve (S (2 * length order * size (load_ptrs F order))) F order
               (init_liveness order) = Some lv) ∧
  (∀ n, liveness_le (passes F order n) (passes F order (S n)) ∧
        bounded (load_ptrs F order) (passes F order n)).
Proof.
  split; [apply (solve_returns F order) |].
  intros n. destruct (passes_invariant F order n) as [Hasc Hb].
  split; [| done]. by apply (visits_grow F order false).
Qed.

(** C10.  After any number of full passes followed by the visits of any
    prefix of the order, and in the converged state, every location in a
    [loads_in] or [loads_out] set is the pointer operand of a load in a block
    reachable from the entry; the step of the scan for a store never adds a
    location to the set it is applied to. *)
Theorem liveness_sets_hold_loaded_locations (F : Function) :
  ∃ visited order,
    dfsPostorder (dfs_fuel F) F (entry F) (∅, []) = Some (visited, order) ∧
    (∀ n k B ptr,
        let lv := (visits F (take k order) (false, passes F order n)).2 in
        ptr ∈ loads_in lv !!! B ∪ loads_out lv !!! B →
        ∃ BB i vol, reachable F (entry F) BB ∧
                    instrs F BB !! i = Some (LoadInst ptr vol)) ∧
    (∃ n lv,
        solve (solve_fuel F order) F order (init_liveness order) = Some lv ∧
        lv = passes F order n) ∧
    (∀ val ptr vol X, transfer_instr (StoreInst val ptr vol) X ⊆ X).
Proof.
  destruct (dfs_order_spec F) as (visited & order & Hdfs & _ & _ & Hreach & _).
  exists visited, order. split; [done |]. split; [| split].
  - intros n k B ptr lv Hptr. subst lv.
    assert (bounded (load_ptrs F order)
              (visits F (take k order) (false, passes F order n)).2) as Hb.
    { apply (visits_invariant F (bounded (load_ptrs F order))).
      - intros BB c lv HBB. apply visit_block_bounded, load_ptrs_block.
        apply elem_of_take in HBB as (j & Hj & _).
        by eapply list_elem_of_lookup_2.
      - apply passes_invariant. }
    destruct (Hb B) as [Hi Ho].
    assert (ptr ∈ load_ptrs F order)
      as (BB & i & vol & HBB & Hload)%elem_of_load_ptrs by set_solver.
    exists BB, i, vol. split; [by apply Hreach | done].
  - destruct (solve_returns F order) as [lv Hsolve].
    destruct (solve_passes _ _ _ _ _ Hsolve) as [n Hn]. by exists n, lv.
  - intros val ptr vol X. rewrite transfer_instr_store. set_solver.
Qed.

(** ** Comparing the analyses of two functions *)

Lemma reachable_agree F G :
  entry F = entry G →
  (∀ B, reachable F (entry F) B → successors F B = successors G B) →
  ∀ B, reachable F (entry F) B ↔ reachable G (entry G) B.
Proof.
  intros He Hs B. rewrite <- He. unfold reachable. split.
  - intros HB. revert B HB. apply rtc_ind_r; [apply rtc_refl |].
    intros B s HB Hedge IH. eapply rtc_r; [exact IH |].
    unfold edge in *. by rewrite <- Hs.
  - intros HB. revert B HB. apply rtc_ind_r; [apply rtc_refl |].
    intros B s HB Hedge IH. eapply rtc_r; [exact IH |].
    unfold edge in *. by rewrite Hs.
Qed.

(** The least solution for [F] lies below any solution for [G] that the
    block transfer functions of [F] cannot enlarge. *)
Lemma least_below F G orderF lvF DF orderG lvG DG :
  analysis F orderF lvF DF → analysis G orderG lvG DG →
  (∀ B, B ∈ orderF → B ∈ orderG) →
  (∀ B, B ∈ orderF → successors F B = successors G B) →
  (∀ B, B ∈ orderF →
        transfer (instrs F B) (loads_out lvG !!! B)
        ⊆ transfer (instrs G B) (loads_out lvG !!! B)) →
  liveness_le lvF lvG.
Proof.
  intros HF HG Hsub Hsucc Htr. apply (an_least _ _ _ _ HF).
  intros B HB. destruct (an_fixpoint _ _ _ _ HG B (Hsub B HB)) as [Hout Hin].
  split.
  - by rewrite (Hsucc B HB), <- Hout.
  - rewrite Hin. by apply Htr.
Qed.

Lemma liveness_le_antisym lv lv' B :
  liveness_le lv lv' → liveness_le lv' lv →
  loads_in lv !!! B = loads_in lv' !!! B ∧
  loads_out lv !!! B = loads_out lv' !!! B.
Proof. intros H1 H2. destruct (H1 B), (H2 B). split; set_solver. Qed.

(** Functions with the same entry, the same edges and the same block
    transfer functions on the reachable blocks have the same solution. *)
Lemma analysis_agree F G orderF lvF DF orderG lvG DG :
  analysis F orderF lvF DF → analysis G orderG lvG DG →
  entry F = entry G →
  (∀ B, reachable F (entry F) B → successors F B = successors G B) →
  (∀ B X, reachable F (entry F) B →
          transfer (instrs F B) X = transfer (instrs G B) X) →
  (∀ B, B ∈ orderF ↔ B ∈ orderG) ∧
  (∀ B, loads_out lvF !!! B = loads_out lvG !!! B).
Proof.
  intros HF HG He Hs Htr.
  assert (∀ B, B ∈ orderF ↔ B ∈ orderG) as Hord.
  { intros B. rewrite (an_reachable _ _ _ _ HF), (an_reachable _ _ _ _ HG).
    by apply reachable_agree. }
  split; [done |]. intros B.
  apply liveness_le_antisym.
  - eapply (least_below F G); [done | done | apply Hord | |].
    + intros B' HB'. by apply Hs, (an_reachable _ _ _ _ HF).
    + intros B' HB'. by rewrite Htr by by apply (an_reachable _ _ _ _ HF).
  - eapply (least_below G F); [done | done | apply Hord | |].
    + intros B' HB'. symmetry. by apply Hs, (an_reachable _ _ _ _ HF), Hord.
    + intros B' HB'.
      by rewrite Htr by by apply (an_reachable _ _ _ _ HF), Hord.
Qed.

Lemma nil_or_elem {A} (l : list A) : l = [] ∨ ∃ x, x ∈ l.
Proof. destruct l as [| x l]; [by left | right]. exists x. by left. Qed.

(** C5.  The pass returns on every function, and a second run on its result
    returns [false] and leaves that result as it is: every block keeps the
    instruction sequence it had after the first run. *)
Theorem runOnFunction_idempotent (F : Function) :
  ∃ F' changed,
    runOnFunction F = Some (F', changed) ∧
    runOnFunction F' = Some (F', false).
Proof.
  destruct (runOnFunction_analysis F)
    as (order & lv & D & Hrun & _ & HF).
  set (F' := erase_all F D) in *.
  destruct (runOnFunction_analysis F')
    as (order' & lv' & D' & Hrun' & _ & HF').
  exists F', (bool_decide (D ≠ [])). split; [done |].
  assert (∀ B, successors F' B = successors F B) as Hsucc
    by apply successors_erase_all.
  assert (∀ B, B ∈ order' ↔ B ∈ order) as Hord.
  { intros B. rewrite (an_reachable _ _ _ _ HF), (an_reachable _ _ _ _ HF').
    symmetry. by apply reachable_agree. }
  assert (∀ B, B ∈ order →
               instrs F' B = prune (instrs F B) (loads_out lv !!! B)) as Hins.
  { intros B HB. unfold F'. rewrite instrs_erase_all.
    apply keep_unmarked_prune. intros i.
    rewrite (an_dead _ _ _ _ HF). naive_solver. }
  assert (∀ B, loads_out lv' !!! B = loads_out lv !!! B) as Hlv.
  { intros B. apply liveness_le_antisym.
    - eapply (least_below F' F); [done | done | apply Hord | done |].
      intros B' HB'%Hord. rewrite (Hins B' HB').
      rewrite transfer_prune.
      by destruct (an_fixpoint _ _ _ _ HF B' HB') as [_ <-].
    - eapply (least_below F F'); [done | done | apply Hord | done |].
      intros B' HB'. rewrite (Hins B' HB'). apply transfer_prune_above. }
  assert (D' = []) as ->.
  { destruct (nil_or_elem D') as [? | [[B i] Hr]]; [done |].
    apply (an_dead _ _ _ _ HF') in Hr as [HB%Hord Hd].
    rewrite (Hins B HB), Hlv in Hd. by apply prune_no_dead_store in Hd. }
  by rewrite erase_all_nil in Hrun'.
Qed.

Lemma changed_flag_agree (D D' : list InstrRef) :
  (∀ r, r ∈ D ↔ r ∈ D') → bool_decide (D ≠ []) = bool_decide (D' ≠ []).
Proof.
  intros Hiff. apply bool_decide_ext.
  destruct (nil_or_elem D) as [-> | [r Hr]],
           (nil_or_elem D') as [-> | [r' Hr']]; try done.
  - apply Hiff in Hr'. by apply elem_of_nil in Hr'.
  - apply Hiff in Hr. by apply elem_of_nil in Hr.
  - split; intros _ ->; by eapply elem_of_nil.
Qed.

(** C7.  The pass leaves every block that no path from the entry reaches as
    it is, and the flag it returns is that of any function with the same
    entry and the same reachable blocks: no block outside the reachable ones,
    present or absent, whatever it holds, makes it [true]. *)
Theorem unreachable_blocks_untouched (F : Function) :
  ∃ F' changed,
    runOnFunction F = Some (F', changed) ∧
    (∀ B, ¬ reachable F (entry F) B → blocks F' !! B = blocks F !! B) ∧
    (∀ G, entry G = entry F →
          (∀ B, reachable F (entry F) B → blocks G !! B = blocks F !! B) →
          ∃ G', runOnFunction G = Some (G', changed)).
Proof.
  destruct (runOnFunction_analysis F) as (order & lv & D & Hrun & _ & HF).
  exists (erase_all F D), (bool_decide (D ≠ [])).
  split; [done |]. split.
  - intros B HB. apply erase_all_unmarked. intros i Hi.
    apply (an_dead _ _ _ _ HF) in Hi as [Hin _].
    by apply HB, (an_reachable _ _ _ _ HF).
  - intros G He Hagree.
    destruct (runOnFunction_analysis G) as (order' & lv' & D' & Hrun' & _ & HG).
    exists (erase_all G D'). rewrite Hrun'. f_equal. f_equal.
    assert (∀ B, reachable F (entry F) B → successors F B = successors G B)
      as Hsucc.
    { intros B HB. unfold successors. by rewrite (Hagree B HB). }
    assert (∀ B, reachable F (entry F) B → instrs F B = instrs G B) as Hins.
    { intros B HB. unfold instrs. by rewrite (Hagree B HB). }
    destruct (analysis_agree F G _ _ _ _ _ _ HF HG) as [Hord Hlv];
      [done | done | by intros B X ->%Hins |].
    apply changed_flag_agree. intros [B i].
    rewrite (an_dead _ _ _ _ HF), (an_dead _ _ _ _ HG), <- Hord, <- Hlv.
    split; intros [HB Hd]; (split; [done |]);
      apply (an_reachable _ _ _ _ HF), Hins in HB; congruence.
Qed.

Lemma transfer_instr_same_access I J X :
  same_access I J → transfer_instr I X = transfer_instr J X.
Proof.
  destruct I, J; simpl; try done; try (by intros [= -> ->]).
  by intros ->.
Qed.

Lemma transfer_same_access body body' X :
  Forall2 same_access body body' → transfer body X = transfer body' X.
Proof.
  induction 1 as [| I J body body' HIJ _ IH]; [done |].
  rewrite !transfer_cons, IH. by apply transfer_instr_same_access.
Qed.

Lemma is_dead_store_same_access body body' X i :
  Forall2 same_access body body' →
  is_dead_store body X i ↔ is_dead_store body' X i.
Proof.
  intros Hsame. unfold is_dead_store.
  rewrite (transfer_same_access (drop (S i) body) (drop (S i) body') X)
    by by apply Forall2_drop.
  destruct (body !! i) as [I |] eqn:HI.
  - destruct (Forall2_lookup_l _ _ _ _ _ Hsame HI) as (J & -> & HIJ).
    destruct I, J; simpl in HIJ; try done. by subst.
  - apply Forall2_length in Hsame.
    apply lookup_ge_None in HI. rewrite Hsame in HI.
    apply lookup_ge_None in HI. by rewrite HI.
Qed.

Lemma keep_unmarked_same_access B (D D' : list InstrRef) body body' :
  (∀ i, (B, i) ∈ D ↔ (B, i) ∈ D') →
  Forall2 same_access body body' →
  Forall2 same_access (keep_unmarked B D body) (keep_unmarked B D' body').
Proof.
  intros Hiff Hsame. unfold keep_unmarked. generalize 0.
  induction Hsame as [| I J body body' HIJ _ IH]; intros k; [constructor |].
  cbn [numbered]. rewrite !filter_cons. cbn [fst].
  destruct (decide ((B, k) ∉ D)) as [HD | HD],
           (decide ((B, k) ∉ D')) as [HD' | HD'].
  - rewrite !fmap_cons. by constructor.
  - exfalso. apply HD'. by rewrite <- Hiff.
  - exfalso. apply HD. by rewrite Hiff.
  - apply IH.
Qed.

(** C9.  On two functions that differ at most in the stored value and the
    volatile flag of their stores, the pass collects the same instructions,
    returns the same flag, and returns functions, each the given one without
    exactly the collected instructions, that again differ at most in the
    stored value and the volatile flag of their stores: whether a store is
    erased depends on nothing but its pointer operand, its position and the
    loads, stores and edges around it, and no store is kept for being
    volatile. *)
Theorem erasure_ignores_store_attributes (F G : Function) :
  same_up_to_store_attributes F G →
  ∃ DF DG F' G' changed,
    dead_stores F = Some DF ∧ dead_stores G = Some DG ∧
    runOnFunction F = Some (F', changed) ∧
    runOnFunction G = Some (G', changed) ∧
    erases_exactly F F' DF ∧ erases_exactly G G' DG ∧
    (∀ B i, (B, i) ∈ DF ↔ (B, i) ∈ DG) ∧
    same_up_to_store_attributes F' G'.
Proof.
  intros [He Hsame].
  destruct (runOnFunction_analysis F) as (order & lv & DF & HrunF & HdF & HF).
  destruct (runOnFunction_analysis G) as (order' & lv' & DG & HrunG & HdG & HG).
  assert (∀ B i, (B, i) ∈ DF ↔ (B, i) ∈ DG) as Hiff.
  { destruct (analysis_agree F G _ _ _ _ _ _ HF HG) as [Hord Hlv];
      [done | | |].
    { intros B _. apply Hsame. }
    { intros B X _. apply transfer_same_access, Hsame. }
    intros B i.
    rewrite (an_dead _ _ _ _ HF), (an_dead _ _ _ _ HG), <- Hord, <- Hlv.
    by rewrite (is_dead_store_same_access (instrs F B) (instrs G B))
      by apply Hsame. }
  exists DF, DG, (erase_all F DF), (erase_all G DG), (bool_decide (DF ≠ [])).
  split; [done |]. split; [done |]. split; [done |].
  split. { rewrite HrunG. do 2 f_equal. symmetry.
           apply changed_flag_agree. by intros [B i]. }
  split; [apply erase_all_erases_exactly |].
  split; [apply erase_all_erases_exactly |]. split; [done |].
  split; [done |]. intros B. rewrite !successors_erase_all, !instrs_erase_all.
  split; [apply Hsame |].
  apply keep_unmarked_same_access; [apply Hiff | apply Hsame].
Qed.

(** ** Single-block fixtures *)

Lemma successors_single_block e body ss B :
  successors (single_block e body ss) B = if decide (B = e) then ss else [].
Proof.
  unfold successors, single_block; simpl. case_decide as HB.
  - subst. by rewrite lookup_singleton_eq.
  - by rewrite lookup_singleton_ne.
Qed.

Lemma instrs_single_block e body ss B :
  instrs (single_block e body ss) B = if decide (B = e) then body else [].
Proof.
  unfold instrs, single_block; simpl. case_decide as HB.
  - subst. by rewrite lookup_singleton_eq.
  - by rewrite lookup_singleton_ne.
Qed.

Lemma is_dead_store_nil X i : ¬ is_dead_store [] X i.
Proof. unfold is_dead_store. rewrite lookup_nil. tauto. Qed.

(** [store L, store L] in an exit block: nothing is live at the exit, so both
    stores are dead. *)
Lemma chain_dead_stores e L :
  ∃ D,
    dead_stores (single_block e [store L; store L] []) = Some D ∧
    runOnFunction (single_block e [store L; store L] [])
      = Some (erase_all (single_block e [store L; store L] []) D, true) ∧
    (∀ r, r ∈ D ↔ r = (e, 0) ∨ r = (e, 1)) ∧
    instrs (erase_all (single_block e [store L; store L] []) D) e = [].
Proof.
  set (F := single_block e [store L; store L] []).
  destruct (runOnFunction_analysis F) as (order & lv & D & Hrun & Hdead & HF).
  assert (e ∈ order) as He by (apply (an_reachable _ _ _ _ HF), rtc_refl).
  assert (loads_out lv !!! e = ∅) as Hout.
  { destruct (an_fixpoint _ _ _ _ HF e He) as [-> _].
    unfold F. by rewrite successors_single_block, decide_True. }
  assert (instrs F e = [store L; store L]) as Hins
    by (unfold F; by rewrite instrs_single_block, decide_True).
  assert (∀ i, is_dead_store [store L; store L] ∅ i ↔ i = 0 ∨ i = 1) as Hd.
  { intros [| [| i]].
    - rewrite is_dead_store_head. split; [by left |]. intros _.
      exists 0, L, false. split; [done |].
      unfold store. rewrite transfer_cons, transfer_instr_store. set_solver.
    - rewrite is_dead_store_tail, is_dead_store_head. split; [by right |].
      intros _. exists 0, L, false. split; [done |]. set_solver.
    - rewrite !is_dead_store_tail. split; [| by intros [? | ?]].
      by intros ?%is_dead_store_nil. }
  assert (∀ r, r ∈ D ↔ r = (e, 0) ∨ r = (e, 1)) as HD.
  { intros [B i]. rewrite (an_dead _ _ _ _ HF). split.
    - intros [HB Hi]. unfold F in Hi. rewrite instrs_single_block in Hi.
      case_decide; [subst B | by apply is_dead_store_nil in Hi].
      rewrite Hout in Hi. apply Hd in Hi. naive_solver.
    - intros Hr. assert (B = e ∧ (i = 0 ∨ i = 1)) as [-> Hi] by naive_solver.
      split; [done |]. rewrite Hins, Hout. by apply Hd. }
  exists D. split; [done |]. split; [| split; [done |]].
  - rewrite Hrun. do 2 f_equal. apply bool_decide_eq_true.
    intros ->. by apply (elem_of_nil (e, 0)), HD; left.
  - rewrite instrs_erase_all, Hins.
    rewrite (keep_unmarked_prune e D _ ∅).
    + unfold store. cbn [prune].
      rewrite transfer_cons, transfer_instr_store, transfer_nil.
      by rewrite !decide_False by set_solver.
    + intros i. rewrite HD, Hd. naive_solver.
Qed.

(** [store L, load L] in a single block: the load below the store reads it,
    whatever the successors of the block are. *)
Lemma store_load_dead_stores e L ss :
  dead_stores (single_block e [store L; load L] ss) = Some [] ∧
  runOnFunction (single_block e [store L; load L] ss)
    = Some (single_block e [store L; load L] ss, false).
Proof.
  set (F := single_block e [store L; load L] ss).
  destruct (runOnFunction_analysis F) as (order & lv & D & Hrun & Hdead & HF).
  assert (D = []) as ->.
  { destruct (nil_or_elem D) as [? | [[B i] Hr]]; [done |]. exfalso.
    apply (an_dead _ _ _ _ HF) in Hr as [_ Hi].
    unfold F in Hi. rewrite instrs_single_block in Hi.
    case_decide; [| by apply is_dead_store_nil in Hi].
    destruct i as [| [| i]].
    - apply is_dead_store_head in Hi as (val & ptr & vol & [= _ <- _] & Hnot).
      apply Hnot. rewrite transfer_cons. simpl. set_solver.
    - rewrite is_dead_store_tail in Hi.
      by apply is_dead_store_head in Hi as (val & ptr & vol & ? & _).
    - rewrite !is_dead_store_tail in Hi. by apply is_dead_store_nil in Hi. }
  split; [done |]. by rewrite erase_all_nil in Hrun.
Qed.

(** C3, amended.  On a single exit block holding [store L, store L] the pass
    returns [true] and erases both stores (nothing is live when the function
    exits), leaving the block empty. *)
Theorem linear_chain_erases_both_stores (e : BasicBlock) (L : Value) :
  ∃ D,
    dead_stores (single_block e [store L; store L] []) = Some D ∧
    runOnFunction (single_block e [store L; store L] [])
      = Some (erase_all (single_block e [store L; store L] []) D, true) ∧
    (∀ r, r ∈ D ↔ r = (e, 0) ∨ r = (e, 1)) ∧
    instrs (erase_all (single_block e [store L; store L] []) D) e = [].
Proof. apply chain_dead_stores. Qed.

(** C3 as stated fails: the pass does not leave [store L1] in the block. *)
Lemma linear_chain_keeps_no_store :
  ¬ ∃ F', runOnFunction F_chain = Some (F', true) ∧ instrs F' 0 = [store 1].
Proof.
  intros (F' & Hrun & Hins).
  destruct (chain_dead_stores 0 1) as (D & _ & Hrun' & _ & Hnil).
  fold F_chain in Hrun', Hnil. rewrite Hrun' in Hrun.
  injection Hrun as <-. by rewrite Hnil in Hins.
Qed.

(** C4, amended.  On a single block holding [store L, load L] the store is
    not erased and the pass returns [false], both when the block is its own
    successor and when it has no successor: the load below the store reads
    it. *)
Theorem store_before_load_is_kept (e : BasicBlock) (L : Value) :
  (dead_stores (single_block e [store L; load L] [e]) = Some [] ∧
   runOnFunction (single_block e [store L; load L] [e])
     = Some (single_block e [store L; load L] [e], false)) ∧
  (dead_stores (single_block e [store L; load L] []) = Some [] ∧
   runOnFunction (single_block e [store L; load L] [])
     = Some (single_block e [store L; load L] [], false)).
Proof. split; apply store_load_dead_stores. Qed.

(** C4 as stated fails: without the self-loop the store is not erased
    either. *)
Lemma straight_store_not_erased :
  ¬ ((∃ D, dead_stores F_loop = Some D ∧ (0, 0) ∉ D) ∧
     (∃ D, dead_stores F_straight = Some D ∧ (0, 0) ∈ D)).
Proof.
  intros [_ (D & HD & Hin)].
  destruct (store_load_dead_stores 0 1 []) as [HD' _].
  fold F_straight in HD'. rewrite HD' in HD. injection HD as <-.
  by apply elem_of_nil in Hin.
Qed.

(** ** Worked examples *)

Example dfs_diamond :
  snd <$> dfsPostorder (dfs_fuel F_diamond) F_diamond 0 (∅, [])
    = Some [3; 1; 2; 0].
Proof. vm_compute. reflexivity. Qed.

Example solve_diamond :
  solve (solve_fuel F_diamond [3; 1; 2; 0]) F_diamond [3; 1; 2; 0]
        (init_liveness [3; 1; 2; 0]) = Some lv_diamond.
Proof. vm_compute. reflexivity. Qed.

(** The store of block [3] is dead; the dead-looking store of the
    unreachable block [4] is not marked. *)
Example dead_stores_diamond : dead_stores F_diamond = Some [(3, 0)].
Proof. vm_compute. reflexivity. Qed.

Example run_chain :
  runOnFunction F_chain = Some (single_block 0 [] [], true).
Proof. vm_compute. reflexivity. Qed.

(** In [F_loop] the load at index 1 may be read from the point after the
    store at index 0. *)
Example may_read_loop : may_read F_loop 1 0 1.
Proof. by apply may_read_load with (vol := false). Qed.

Example run_branch : runOnFunction F_branch = Some (F_branch, false).
Proof. vm_compute. reflexivity. Qed.

(** With the load above the store, the self-loop keeps the store alive and
    its removal makes the store dead. *)
Example load_store_loop :
  dead_stores (single_block 0 [load 1; store 1] [0]) = Some [] ∧
  dead_stores (single_block 0 [load 1; store 1] []) = Some [(0, 1)].
Proof. split; vm_compute; reflexivity. Qed.

(** Of the two volatile stores of [F_overwrite_volatile] the overwritten one
    is erased, as in [F_overwrite]. *)
Example run_overwrite :
  runOnFunction F_overwrite
    = Some (single_block 0 [store 1; load 1] [], true) ∧
  runOnFunction F_overwrite_volatile
    = Some (single_block 0 [StoreInst 9 1 true; load 1] [], true).
Proof. split; vm_compute; reflexivity. Qed.

(** A volatile store is erased like any other. *)
Example volatile_store_erased :
  runOnFunction (single_block 0 [StoreInst 7 1 true] [])
    = Some (single_block 0 [] [], true).
Proof. vm_compute. reflexivity. Qed.

Example run_chain_volatile :
  runOnFunction F_chain_volatile = Some (single_block 0 [] [], true).
Proof. vm_compute. reflexivity. Qed.

(** On the chain [0 -> 1 -> 2 -> 3] the order is the chain backwards. *)
Example dfs_line :
  snd <$> dfsPostorder 4
            (mkFunction 0
               (<[0 := mkBlock [] [1]]> (<[1 := mkBlock [] [2]]>
                (<[2 := mkBlock [] [3]]> (<[3 := mkBlock [] []]> ∅)))))
            0 (∅, [])
    = Some [3; 2; 1; 0].
Proof. vm_compute. reflexivity. Qed.

(** Witness for C2: the solution on [F_diamond]. *)
Lemma solver_fixed_point_witness :
  solve 9 F_diamond [3; 1; 2; 0] (init_liveness [3; 1; 2; 0])
    = Some lv_diamond ∧
  (∀ B, B ∈ [3; 1; 2; 0] →
        loads_out lv_diamond !!! B
          = spec_union (loads_in lv_diamond) (successors F_diamond B) ∧
        (successors F_diamond B = [] → loads_out lv_diamond !!! B = ∅) ∧
        loads_in lv_diamond !!! B
          = spec_transfer (instrs F_diamond B) (loads_out lv_diamond !!! B)) ∧
  solver_pass F_diamond [3; 1; 2; 0] lv_diamond = (false, lv_diamond).
Proof.
  assert (solve 9 F_diamond [3; 1; 2; 0] (init_liveness [3; 1; 2; 0])
          = Some lv_diamond) as Hsolve by (vm_compute; reflexivity).
  split; [exact Hsolve |].
  exact (solver_fixed_point F_diamond [3; 1; 2; 0] 9 _ lv_diamond Hsolve).
Defined.

(** Witness for C9: [F_overwrite] and the same block with other stored
    values and volatile flags. *)
Lemma erasure_ignores_store_attributes_witness :
  same_up_to_store_attributes F_overwrite F_overwrite_volatile ∧
  ∃ DF DG F' G' changed,
    dead_stores F_overwrite = Some DF ∧
    dead_stores F_overwrite_volatile = Some DG ∧
    runOnFunction F_overwrite = Some (F', changed) ∧
    runOnFunction F_overwrite_volatile = Some (G', changed) ∧
    erases_exactly F_overwrite F' DF ∧
    erases_exactly F_overwrite_volatile G' DG ∧
    (∀ B i, (B, i) ∈ DF ↔ (B, i) ∈ DG) ∧
    same_up_to_store_attributes F' G'.
Proof.
  assert (same_up_to_store_attributes F_overwrite F_overwrite_volatile)
    as Hsame.
  { split; [reflexivity |]. intros B.
    unfold F_overwrite, F_overwrite_volatile.
    rewrite !successors_single_block, !instrs_single_block.
    split; [reflexivity |].
    destruct (decide (B = 0)); repeat constructor. }
  split; [exact Hsame |].
  exact (erasure_ignores_store_attributes _ _ Hsame).
Defined.

(** * Further properties of the pass *)

(** The three phases of [runOnFunction], with what each has established. *)
Lemma pass_run F :
  ∃ visited order lv,
    dfsPostorder (dfs_fuel F) F (entry F) (∅, []) = Some (visited, order) ∧
    solve (solve_fuel F order) F order (init_liveness order) = Some lv ∧
    dead_stores F = Some (mark F order (loads_out lv)).2 ∧
    runOnFunction F
      = Some (erase_all F (mark F order (loads_out lv)).2,
              bool_decide ((mark F order (loads_out lv)).2 ≠ [])) ∧
    analysis F order lv (mark F order (loads_out lv)).2.
Proof.
  destruct (dfs_order_spec F)
    as (visited & order & Hdfs & _ & Hnd & Hreach & _).
  destruct (solve_returns F order) as [lv Hsolve].
  exists visited, order, lv. split; [done |]. split; [done |].
  assert (dead_stores F = Some (mark F order (loads_out lv)).2) as Hdead.
  { unfold dead_stores. by rewrite Hdfs, Hsolve. }
  split; [done |]. split; [unfold runOnFunction; by rewrite Hdead |].
  split; [done | done | | |].
  - by apply (solve_fixpoint F _ _ _ _ Hsolve).
  - intros fp Hfp.
    apply (solve_invariant F (λ lv, liveness_le lv fp) order)
      with (3 := Hsolve).
    + intros BB c lv0 HBB Hle. by apply (visit_block_below F order).
    + apply init_liveness_least.
  - intros B i. rewrite (mark_spec F order (loads_out lv) Hnd). split.
    + by intros (B' & i' & [= <- <-] & ? & ?).
    + intros [? ?]. eauto.
Qed.

(** ** The solution is exactly what paths may read *)

(** A location the backward scan has in its set at some point of a block
    may be read from that point, when this holds at the end of the block. *)
Lemma transfer_may_read F B L (X : gset Value) pre suffix :
  instrs F B = pre ++ suffix →
  (L ∈ X → may_read F L B (length (instrs F B))) →
  L ∈ transfer suffix X → may_read F L B (length pre).
Proof.
  intros Hbody HX. revert pre Hbody.
  induction suffix as [| Instr suffix IH]; intros pre Hbody.
  - rewrite app_nil_r in Hbody. rewrite transfer_nil, <- Hbody. exact HX.
  - assert (instrs F B !! length pre = Some Instr) as Hk
      by (rewrite Hbody; apply list_lookup_middle; done).
    assert (L ∈ transfer suffix X → may_read F L B (S (length pre))) as Hnext.
    { intros HL. specialize (IH (pre ++ [Instr])).
      rewrite length_app, Nat.add_1_r in IH. apply IH; [| done].
      by rewrite <- app_assoc. }
    rewrite transfer_cons.
    destruct Instr as [ptr vol | val ptr vol |]; simpl.
    + intros [->%elem_of_singleton | HL]%elem_of_union.
      * by eapply may_read_load.
      * eapply may_read_next; [exact Hk | done | by apply Hnext].
    + intros HL.
      assert (L ∈ transfer suffix X ∧ L ≠ ptr) as [HL' Hne]
        by (case_decide; set_solver).
      eapply may_read_next; [exact Hk | | by apply Hnext].
      intros val' vol' [= _ -> _]. done.
    + intros HL. eapply may_read_next; [exact Hk | done | by apply Hnext].
Qed.

Lemma transfer_may_read_drop F B L (X : gset Value) k :
  k ≤ length (instrs F B) →
  (L ∈ X → may_read F L B (length (instrs F B))) →
  L ∈ transfer (drop k (instrs F B)) X → may_read F L B k.
Proof.
  intros Hk HX HL.
  pose proof (transfer_may_read F B L X (take k (instrs F B))
                (drop k (instrs F B))) as Hgen.
  rewrite take_drop, length_take, Nat.min_l in Hgen by done.
  by apply Hgen.
Qed.

Lemma visit_block_within_paths F BB changed lv :
  within_paths F lv → within_paths F (visit_block F BB (changed, lv)).2.
Proof.
  intros Hw.
  destruct (visit_block_spec F BB changed lv)
    as (changed' & lv' & -> & Hout & Hin & _); simpl.
  assert (∀ L, L ∈ new_out_of F lv BB →
               may_read F L BB (length (instrs F BB))) as Hno.
  { intros L (s & Hs & HL)%elem_of_union_of_in.
    eapply may_read_succ; [done | exact Hs |]. by apply (Hw s L). }
  intros B L. rewrite Hout, Hin.
  case_decide as HB; [subst B | apply Hw]. split; [| apply Hno].
  unfold new_in_of. intros HL.
  apply (transfer_may_read F BB L (new_out_of F lv BB) [] (instrs F BB));
    [done | apply Hno | done].
Qed.

Lemma solve_within_paths F order fuel lv :
  solve fuel F order (init_liveness order) = Some lv → within_paths F lv.
Proof.
  apply (solve_invariant F (within_paths F) order).
  - intros BB c lv0 _. apply visit_block_within_paths.
  - intros B L. destruct (init_liveness_empty order B) as [-> ->]. set_solver.
Qed.

Lemma order_closed F (order : list BasicBlock) :
  (∀ B, B ∈ order ↔ reachable F (entry F) B) →
  ∀ B s, B ∈ order → s ∈ successors F B → s ∈ order.
Proof.
  intros Hreach B s HB Hs. apply Hreach.
  eapply reachable_closed; [| exact Hs]. by apply Hreach.
Qed.

(** X1.  The sets the solver converges to are exact: at every reachable
    block, [loads_in] holds the locations that some path from the first
    instruction of the block reads before storing to them, and [loads_out]
    those that some path from the end of the block reads so. *)
Theorem liveness_is_path_liveness (F : Function) :
  ∃ visited order lv,
    dfsPostorder (dfs_fuel F) F (entry F) (∅, []) = Some (visited, order) ∧
    solve (solve_fuel F order) F order (init_liveness order) = Some lv ∧
    ∀ B L, reachable F (entry F) B →
           (L ∈ loads_in lv !!! B ↔ may_read F L B 0) ∧
           (L ∈ loads_out lv !!! B ↔
              may_read F L B (length (instrs F B))).
Proof.
  destruct (pass_run F) as (visited & order & lv & Hdfs & Hsolve & _ & _ & Han).
  exists visited, order, lv. split; [done |]. split; [done |].
  intros B L HB%(an_reachable _ _ _ _ Han).
  pose proof (solve_within_paths _ _ _ _ Hsolve B L) as [Hin Hout].
  pose proof (fixpoint_sound F order lv
                (order_closed F order (an_reachable _ _ _ _ Han))
                (an_fixpoint _ _ _ _ Han) L B) as Hsound.
  split; (split; [done |]); intros Hread.
  - specialize (Hsound 0 Hread HB). rewrite drop_0 in Hsound.
    by destruct (an_fixpoint _ _ _ _ Han B HB) as [_ ->].
  - specialize (Hsound _ Hread HB). by rewrite drop_all, transfer_nil in Hsound.
Qed.

(** The marked instructions, in terms of paths. *)
Lemma marked_iff_never_read F :
  ∃ toErase,
    dead_stores F = Some toErase ∧
    runOnFunction F = Some (erase_all F toErase, bool_decide (toErase ≠ [])) ∧
    ∀ B i,
      (B, i) ∈ toErase ↔
      reachable F (entry F) B ∧
      ∃ val ptr vol, instrs F B !! i = Some (StoreInst val ptr vol) ∧
                     ¬ may_read F ptr B (S i).
Proof.
  destruct (pass_run F)
    as (visited & order & lv & _ & Hsolve & Hdead & Hrun & Han).
  exists (mark F order (loads_out lv)).2. split; [done |]. split; [done |].
  intros B i. rewrite (an_dead _ _ _ _ Han), (an_reachable _ _ _ _ Han).
  split; intros [HB Hd]; (split; [done |]).
  - unfold is_dead_store in Hd.
    destruct (instrs F B !! i) as [[| val ptr vol |] |] eqn:Hi; try done.
    exists val, ptr, vol. split; [done |]. intros Hread. apply Hd.
    eapply fixpoint_sound; [| exact (an_fixpoint _ _ _ _ Han) | exact Hread |].
    + apply order_closed, (an_reachable _ _ _ _ Han).
    + by apply (an_reachable _ _ _ _ Han).
  - destruct Hd as (val & ptr & vol & Hi & Hnever).
    unfold is_dead_store. rewrite Hi. intros Hlive. apply Hnever.
    apply (transfer_may_read_drop F B ptr (loads_out lv !!! B));
      [by apply lookup_lt_Some in Hi | | done].
    apply (solve_within_paths _ _ _ _ Hsolve B ptr).
Qed.

(** The function returned, the collected instructions and the paths. *)
Lemma pass_erases_never_read F :
  ∃ toErase F' changed,
    dead_stores F = Some toErase ∧
    runOnFunction F = Some (F', changed) ∧
    erases_exactly F F' toErase ∧
    ∀ B i,
      (B, i) ∈ toErase ↔
      reachable F (entry F) B ∧
      ∃ val ptr vol, instrs F B !! i = Some (StoreInst val ptr vol) ∧
                     ¬ may_read F ptr B (S i).
Proof.
  destruct (marked_iff_never_read F) as (toErase & Hdead & Hrun & Hiff).
  exists toErase, (erase_all F toErase), (bool_decide (toErase ≠ [])).
  split; [done |]. split; [done |].
  split; [apply erase_all_erases_exactly | done].
Qed.

Lemma erases_exactly_shorter F F' (toErase : list InstrRef) B i :
  erases_exactly F F' toErase → (B, i) ∈ toErase →
  i < length (instrs F B) → length (instrs F' B) < length (instrs F B).
Proof.
  intros Her Hin Hi. by eapply (erasure_gone _ 0 _ _ i (Her B)).
Qed.

(** X2.  The pass misses no dead store: the function it returns is the
    given one without exactly the collected instructions, and every store of a
    reachable block whose location no path from the point after it reads
    before storing to it again is among them, so that its block is strictly
    shorter in the function returned. *)
Theorem every_unread_store_is_erased (F : Function) :
  ∃ toErase F' changed,
    dead_stores F = Some toErase ∧
    runOnFunction F = Some (F', changed) ∧
    erases_exactly F F' toErase ∧
    ∀ B i val ptr vol,
      reachable F (entry F) B →
      instrs F B !! i = Some (StoreInst val ptr vol) →
      ¬ may_read F ptr B (S i) →
      (B, i) ∈ toErase ∧ length (instrs F' B) < length (instrs F B).
Proof.
  destruct (pass_erases_never_read F)
    as (toErase & F' & changed & Hdead & Hrun & Her & Hiff).
  exists toErase, F', changed. repeat (split; [done |]).
  intros B i val ptr vol HB Hi Hnever.
  assert ((B, i) ∈ toErase) as Hin by (apply Hiff; eauto 10).
  split; [done |]. eapply erases_exactly_shorter; [done | done |].
  by apply lookup_lt_Some in Hi.
Qed.

(** A path that may read [L] ends at a load of [L]. *)
Lemma may_read_reaches_load F L B k :
  may_read F L B k →
  ∃ B' i vol, reachable F B B' ∧ instrs F B' !! i = Some (LoadInst L vol).
Proof.
  induction 1 as [B k vol Hk | B k Instr _ _ _ IH | B k S _ HS _ IH].
  - exists B, k, vol. split; [apply rtc_refl | done].
  - exact IH.
  - destruct IH as (B' & i & vol & Hreach & Hi).
    exists B', i, vol. split; [| done]. by eapply rtc_l.
Qed.

(** X3.  Stores are kept alive by loads only: when no reachable block loads
    from [L], every store to [L] in a reachable block is collected and
    deleted, and no reachable block of the function returned stores to
    [L]. *)
Theorem stores_to_unloaded_location_are_erased (F : Function) (L : Value) :
  (∀ B i vol, reachable F (entry F) B →
              instrs F B !! i ≠ Some (LoadInst L vol)) →
  ∃ toErase F' changed,
    dead_stores F = Some toErase ∧
    runOnFunction F = Some (F', changed) ∧
    erases_exactly F F' toErase ∧
    (∀ B i val vol,
        reachable F (entry F) B →
        instrs F B !! i = Some (StoreInst val L vol) →
        (B, i) ∈ toErase) ∧
    (∀ B j val vol,
        reachable F (entry F) B →
        instrs F' B !! j ≠ Some (StoreInst val L vol)).
Proof.
  intros Hnoload.
  destruct (pass_erases_never_read F)
    as (toErase & F' & changed & Hdead & Hrun & Her & Hiff).
  exists toErase, F', changed. repeat (split; [done |]).
  assert (∀ B i val vol,
             reachable F (entry F) B →
             instrs F B !! i = Some (StoreInst val L vol) →
             (B, i) ∈ toErase) as Hall.
  { intros B i val vol HB Hi. apply Hiff. split; [done |].
    exists val, L, vol. split; [done |].
    intros (B' & j & vol' & Hreach & Hj)%may_read_reaches_load.
    eapply Hnoload; [| exact Hj]. by etrans. }
  split; [done |]. intros B j val vol HB Hj.
  destruct (erasure_from _ _ _ _ _ _ (Her B) Hj) as (i & Hi & Hnot).
  apply Hnot. simpl. by eapply Hall.
Qed.

(** ** What erasing does to the function *)

(** The blocks after the pass: a reachable block loses its dead stores, any
    other block keeps its instructions. *)
Lemma instrs_after_pass F order lv toErase B :
  analysis F order lv toErase →
  instrs (erase_all F toErase) B =
    if decide (B ∈ order) then prune (instrs F B) (loads_out lv !!! B)
    else instrs F B.
Proof.
  intros Han. rewrite instrs_erase_all. case_decide as HB.
  - apply keep_unmarked_prune. intros i.
    rewrite (an_dead _ _ _ _ Han). naive_solver.
  - apply keep_unmarked_id. intros i Hi.
    by apply (an_dead _ _ _ _ Han) in Hi as [? _].
Qed.

Lemma prune_length_le body X : length (prune body X) ≤ length body.
Proof.
  induction body as [| Instr body IH]; [done |].
  destruct Instr as [ptr vol | val ptr vol |]; simpl; try lia.
  case_decide; simpl; lia.
Qed.

Lemma prune_length_lt body X i :
  is_dead_store body X i → length (prune body X) < length body.
Proof.
  revert i. induction body as [| Instr body IH]; intros i.
  { by intros ?%is_dead_store_nil. }
  destruct i as [| i].
  - intros (val & ptr & vol & -> & Hdead)%is_dead_store_head.
    simpl. rewrite decide_False by done.
    pose proof (prune_length_le body X). lia.
  - rewrite is_dead_store_tail. intros Hd%IH.
    destruct Instr as [ptr vol | val ptr vol |]; simpl; try lia.
    case_decide; simpl; lia.
Qed.

Lemma prune_sublist body X : prune body X `sublist_of` body.
Proof.
  induction body as [| Instr body IH]; [constructor |].
  destruct Instr as [ptr vol | val ptr vol |]; simpl.
  - by apply sublist_skip.
  - case_decide; [by apply sublist_skip | by apply sublist_cons].
  - by apply sublist_skip.
Qed.

Lemma prune_keeps_other_instructions body X :
  filter (λ Instr, is_store Instr = false) (prune body X)
  = filter (λ Instr, is_store Instr = false) body.
Proof.
  induction body as [| Instr body IH]; [done |].
  destruct Instr as [ptr vol | val ptr vol |]; simpl.
  - rewrite !filter_cons. simpl. by rewrite IH.
  - rewrite (filter_cons _ (StoreInst val ptr vol) body). simpl.
    case_decide; [| done]. rewrite filter_cons. simpl. by rewrite IH.
  - rewrite !filter_cons. simpl. by rewrite IH.
Qed.

(** X4.  The returned flag tells whether the function was modified: it is
    [true] exactly when the function after the pass differs from the one
    before, and then some reachable block has become shorter. *)
Theorem changed_iff_modified (F : Function) :
  ∃ F' changed,
    runOnFunction F = Some (F', changed) ∧
    (changed = true ↔ F' ≠ F) ∧
    (changed = true →
     ∃ B, reachable F (entry F) B ∧
          length (instrs F' B) < length (instrs F B)).
Proof.
  destruct (runOnFunction_analysis F) as (order & lv & D & Hrun & _ & Han).
  exists (erase_all F D), (bool_decide (D ≠ [])). split; [done |].
  assert (D ≠ [] →
          ∃ B, reachable F (entry F) B ∧
               length (instrs (erase_all F D) B) < length (instrs F B))
    as Hshorter.
  { intros HD. destruct (nil_or_elem D) as [? | [[B i] Hr]]; [done |].
    apply (an_dead _ _ _ _ Han) in Hr as [HB Hd].
    exists B. split; [by apply (an_reachable _ _ _ _ Han) |].
    rewrite (instrs_after_pass F order lv D B Han), decide_True by done.
    by eapply prune_length_lt. }
  split; [| by intros HD%bool_decide_eq_true; apply Hshorter].
  rewrite bool_decide_eq_true. split.
  - intros (B & _ & Hlt)%Hshorter Heq. rewrite Heq in Hlt. lia.
  - intros Hne ->. by rewrite erase_all_nil in Hne.
Qed.

(** X5.  The pass removes nothing but stores: the entry, the set of blocks
    and every successor list stay as they are, and in every block the
    instructions left are a subsequence of the original ones that still holds
    every load and every other instruction that is not a store, in order. *)
Theorem pass_removes_only_stores (F : Function) :
  ∃ F' changed,
    runOnFunction F = Some (F', changed) ∧
    entry F' = entry F ∧
    dom (blocks F') = dom (blocks F) ∧
    (∀ B, successors F' B = successors F B) ∧
    (∀ B, instrs F' B `sublist_of` instrs F B ∧
          filter (λ Instr, is_store Instr = false) (instrs F' B)
          = filter (λ Instr, is_store Instr = false) (instrs F B)).
Proof.
  destruct (runOnFunction_analysis F) as (order & lv & D & Hrun & _ & Han).
  exists (erase_all F D), (bool_decide (D ≠ [])). split; [done |].
  split; [done |]. split; [| split; [apply successors_erase_all |]].
  - apply set_eq. intros B. rewrite !elem_of_dom. unfold erase_all; simpl.
    rewrite map_lookup_imap. destruct (blocks F !! B); simpl; [| done].
    split; eauto.
  - intros B. rewrite (instrs_after_pass F order lv D B Han).
    case_decide; [| done].
    split; [apply prune_sublist | apply prune_keeps_other_instructions].
Qed.

(** ** No instruction is marked twice *)

Lemma mark_local_scan_nodup BB body k X dead :
  ∃ new,
    (foldl (λ st iI, mark_local BB iI st) (X, dead)
           (reverse (numbered k body))).2 = dead ++ new ∧
    NoDup new ∧ ∀ r, r ∈ new → ∃ i, r = (BB, k + i).
Proof.
  revert k. induction body as [| Instr body IH]; intros k.
  - exists []. rewrite app_nil_r. split; [done |].
    split; [constructor | by intros r ?%elem_of_nil].
  - destruct (IH (S k)) as (new & Hscan & Hnd & Hidx).
    cbn [numbered]. rewrite reverse_cons, foldl_snoc.
    destruct (foldl _ (X, dead) (reverse (numbered (S k) body)))
      as [live dead'] eqn:Hfold.
    simpl in Hscan. subst dead'.
    assert (∀ r, r ∈ new → ∃ i, r = (BB, k + i)) as Hidx'.
    { intros r (i & ->)%Hidx. exists (S i). by rewrite Nat.add_succ_r. }
    unfold mark_local; cbn [fst snd].
    destruct Instr as [ptr vol | val ptr vol |];
      [by exists new | | by exists new].
    destruct (decide (ptr ∈ live)); [by exists new |]. cbn [snd].
    exists (new ++ [(BB, k)]). split; [by rewrite app_assoc |]. split.
    + apply NoDup_app. split; [done |]. split; [| apply NoDup_singleton].
      intros r (i & ->)%Hidx [= Hk]%list_elem_of_singleton. lia.
    + intros r [Hr | ->%list_elem_of_singleton]%elem_of_app; [by apply Hidx' |].
      exists 0. by rewrite Nat.add_0_r.
Qed.

Lemma mark_block_nodup F BB lout dead :
  ∃ new,
    (mark_block F BB (lout, dead)).2 = dead ++ new ∧
    NoDup new ∧ ∀ r, r ∈ new → r.1 = BB.
Proof.
  unfold mark_block.
  destruct (mark_instrs_local BB (reverse (numbered 0 (instrs F BB))) lout dead)
    as (_ & -> & _).
  destruct (mark_local_scan_nodup BB (instrs F BB) 0 (lout !!! BB) dead)
    as (new & -> & Hnd & Hidx).
  exists new. split; [done |]. split; [done |].
  by intros r (i & ->)%Hidx.
Qed.

Lemma mark_nodup F (order : list BasicBlock) lout :
  NoDup order → NoDup (mark F order lout).2.
Proof.
  unfold mark. intros Hnd.
  assert (∀ lout0 dead0,
             ∃ new,
               (foldl (λ st BB, mark_block F BB st) (lout0, dead0) order).2
                 = dead0 ++ new ∧
               NoDup new ∧ ∀ r, r ∈ new → r.1 ∈ order) as Hgen.
  { induction Hnd as [| BB order HBB Hnd IH]; intros lout0 dead0.
    - exists []. rewrite app_nil_r. split; [done |].
      split; [constructor | by intros r ?%elem_of_nil].
    - cbn [foldl].
      destruct (mark_block_nodup F BB lout0 dead0) as (new1 & H1 & Hnd1 & HBB1).
      destruct (mark_block F BB (lout0, dead0)) as [lout1 dead1].
      simpl in H1. subst dead1.
      destruct (IH lout1 (dead0 ++ new1)) as (new2 & -> & Hnd2 & Hin2).
      exists (new1 ++ new2). split; [by rewrite app_assoc |]. split.
      + apply NoDup_app. split; [done |]. split; [| done].
        intros r Hr1%HBB1 Hr2%Hin2. by rewrite Hr1 in Hr2.
      + intros r [Hr%HBB1 | Hr%Hin2]%elem_of_app;
          [rewrite Hr; by left | by right]. }
  destruct (Hgen lout []) as (new & -> & Hnew & _). done.
Qed.

(** X6.  No instruction is collected twice in [toErase], so the erasing
    loop never calls [eraseFromParent] on an instruction it has already
    erased; and every collected instruction exists in its block. *)
Theorem no_instruction_is_erased_twice (F : Function) :
  ∃ toErase,
    dead_stores F = Some toErase ∧
    NoDup toErase ∧
    ∀ B i, (B, i) ∈ toErase → i < length (instrs F B).
Proof.
  destruct (pass_run F)
    as (visited & order & lv & _ & _ & Hdead & _ & Han).
  exists (mark F order (loads_out lv)).2. split; [done |]. split.
  - apply mark_nodup, (an_nodup _ _ _ _ Han).
  - intros B i [_ Hd]%(an_dead _ _ _ _ Han). unfold is_dead_store in Hd.
    destruct (instrs F B !! i) eqn:Hi; [| done].
    by apply lookup_lt_Some in Hi.
Qed.

(** ** The keys of the two maps *)

Lemma init_liveness_keyed order : keyed_by order (init_liveness order).
Proof.
  unfold init_liveness.
  assert (∀ lv,
             let lv' :=
               foldl (λ lv BB, mkLiveness (<[BB := ∅]> (loads_in lv))
                                          (<[BB := ∅]> (loads_out lv)))
                     lv order in
             dom (loads_in lv') = dom (loads_in lv) ∪ list_to_set order ∧
             dom (loads_out lv') = dom (loads_out lv) ∪ list_to_set order)
    as Hgen.
  { induction order as [| BB order IH]; intros lv; simpl; [set_solver |].
    destruct (IH (mkLiveness (<[BB := ∅]> (loads_in lv))
                             (<[BB := ∅]> (loads_out lv)))) as [-> ->].
    simpl. rewrite !dom_insert_L. set_solver. }
  destruct (Hgen (mkLiveness ∅ ∅)) as [Hi Ho]. simpl in Hi, Ho.
  rewrite dom_empty_L in Hi, Ho. split; set_solver.
Qed.

Lemma visit_block_keyed F order BB changed lv :
  BB ∈ order → keyed_by order lv →
  keyed_by order (visit_block F BB (changed, lv)).2.
Proof.
  intros HBB [Hi Ho]. unfold visit_block. destruct lv as [lin lout].
  simpl in *. unfold keyed_by.
  repeat case_decide; simpl; rewrite ?dom_insert_L, ?Hi, ?Ho; set_solver.
Qed.

Lemma solve_keyed F order fuel lv :
  solve fuel F order (init_liveness order) = Some lv → keyed_by order lv.
Proof.
  apply (solve_invariant F (keyed_by order) order).
  - intros BB c lv0 HBB. by apply visit_block_keyed.
  - apply init_liveness_keyed.
Qed.

(** Two states with the same keys and the same set at every key are the
    same. *)
Lemma liveness_eq (order order' : list BasicBlock) lv lv' :
  keyed_by order lv → keyed_by order' lv' →
  (∀ B, B ∈ order ↔ B ∈ order') →
  (∀ B, loads_in lv !!! B = loads_in lv' !!! B ∧
        loads_out lv !!! B = loads_out lv' !!! B) →
  lv = lv'.
Proof.
  intros [Hi Ho] [Hi' Ho'] Hord Heq.
  assert (∀ m m' : gmap BasicBlock (gset Value),
             dom m = dom m' → (∀ B, m !!! B = m' !!! B) → m = m') as Hmap.
  { intros m m' Hdom Hval. apply map_eq. intros B.
    specialize (Hval B). rewrite !lookup_total_alt in Hval.
    destruct (m !! B) as [X |] eqn:HX, (m' !! B) as [X' |] eqn:HX';
      simpl in Hval; [by subst | | | done].
    - apply not_elem_of_dom in HX'. rewrite <- Hdom in HX'.
      by apply not_elem_of_dom in HX'; rewrite HX' in HX.
    - apply not_elem_of_dom in HX. rewrite Hdom in HX.
      by apply not_elem_of_dom in HX; rewrite HX in HX'. }
  destruct lv as [lin lout], lv' as [lin' lout']. simpl in *. f_equal.
  - apply Hmap; [| apply Heq]. rewrite Hi, Hi'. set_solver.
  - apply Hmap; [| apply Heq]. rewrite Ho, Ho'. set_solver.
Qed.

(** X7.  The solver never reads or writes a key that the initialisation
    loop has not created: after any number of full passes of the order
    [dfsPostorder] computes, followed by the visits of any prefix of it, both
    maps have exactly the blocks of the order as keys, and the successors of
    every block of the order are among them. *)
Theorem solver_touches_initialised_keys_only (F : Function) :
  ∃ visited order,
    dfsPostorder (dfs_fuel F) F (entry F) (∅, []) = Some (visited, order) ∧
    ∀ n k,
      let lv := (visits F (take k order) (false, passes F order n)).2 in
      dom (loads_in lv) = list_to_set order ∧
      dom (loads_out lv) = list_to_set order ∧
      ∀ B s, B ∈ order → s ∈ successors F B →
             loads_in lv !! s = Some (loads_in lv !!! s).
Proof.
  destruct (dfs_order_spec F)
    as (visited & order & Hdfs & _ & _ & Hreach & Hclosed).
  exists visited, order. split; [done |]. intros n k lv.
  assert (keyed_by order lv) as [Hi Ho].
  { apply (visits_invariant F (keyed_by order)).
    - intros BB c lv0 HBB. apply visit_block_keyed.
      apply elem_of_take in HBB as (j & Hj & _).
      by eapply list_elem_of_lookup_2.
    - simpl. induction n as [| n IH]; [apply init_liveness_keyed |].
      unfold passes in *. rewrite Nat.iter_succ.
      apply (visits_invariant F (keyed_by order) order); [| done].
      intros BB c lv0 HBB. by apply visit_block_keyed. }
  split; [done |]. split; [done |]. intros B s HB Hs.
  assert (s ∈ dom (loads_in lv)) as [X HX]%elem_of_dom.
  { rewrite Hi. apply elem_of_list_to_set. by eapply Hclosed. }
  by rewrite (lookup_total_correct _ _ _ HX).
Qed.

(** ** The least solution *)




(** ** Successors come first in the postorder *)

Lemma before_app (l l' : list BasicBlock) x y :
  before l x y → before (l ++ l') x y.
Proof.
  intros (i & j & Hi & Hj & Hlt). exists i, j.
  split; [by apply lookup_app_l_Some |]. split; [by apply lookup_app_l_Some |].
  done.
Qed.

Lemma before_snoc (l : list BasicBlock) x y : x ∈ l → before (l ++ [y]) x y.
Proof.
  intros (i & Hi)%list_elem_of_lookup_1. exists i, (length l).
  split; [by apply lookup_app_l_Some |].
  split; [by apply list_lookup_middle |]. by apply lookup_lt_Some in Hi.
Qed.

Lemma dfs_call_edges F fuel node V ord V' ord' :
  node ∉ V → stack_reaches F V ord node →
  dfsPostorder fuel F node (V, ord) = Some (V', ord') →
  ∀ b s, b ∈ ord' → b ∉ ord → s ∈ successors F b →
         before ord' s b ∨ reachable F s b.
Proof.
  revert node V ord V' ord'.
  induction fuel as [| fuel IH]; intros node V ord V' ord' Hnode Hstack;
    [done |].
  assert (∀ ss Vc ordc Vb ordb,
             (∀ s, s ∈ ss → s ∈ successors F node) →
             stack_reaches F Vc ordc node →
             for_each (dfs_succ fuel F) ss (Vc, ordc) = Some (Vb, ordb) →
             stack_reaches F Vb ordb node ∧
             ∀ b s, b ∈ ordb → b ∉ ordc → s ∈ successors F b →
                    before ordb s b ∨ reachable F s b) as Hloop.
  { induction ss as [| s ss IHss]; intros Vc ordc Vb ordb Hss Hst; simpl.
    - intros [= <- <-]. split; [done |]. by intros b s' Hb Hnb.
    - unfold dfs_succ at 1; simpl. destruct (decide (s ∈ Vc)) as [Hs | Hs].
      + apply IHss; [| done]. intros s' Hs'. apply Hss. by right.
      + destruct (dfsPostorder fuel F s (Vc, ordc)) as [[V1 ord1] |] eqn:Hcall;
          [| done].
        intros Hrest.
        destruct (dfs_call_spec F _ _ _ _ _ _ Hs Hcall)
          as (l1 & Hord1 & (HV1 & _ & Hfresh1 & _) & _).
        destruct Hst as [Hsub Hgray].
        assert (stack_reaches F V1 ord1 node) as Hst1.
        { subst V1 ord1. split.
          - intros x [Hx%Hsub | Hx]%elem_of_app; set_solver.
          - intros g Hg Hnot. apply Hgray; [| set_solver].
            apply elem_of_union in Hg as [Hg | Hg%elem_of_list_to_set];
              [done |].
            exfalso. apply Hnot. apply elem_of_app. by right. }
        assert (stack_reaches F Vc ordc s) as Hsts.
        { split; [done |]. intros g Hg Hnot.
          eapply rtc_r; [by apply Hgray |]. apply Hss. by left. }
        pose proof (IH _ _ _ _ _ Hs Hsts Hcall) as Hedges1.
        destruct (IHss V1 ord1 Vb ordb) as [Hstb Hedges2]; [| done | done |].
        { intros s' Hs'. apply Hss. by right. }
        assert (∃ l2, ordb = ord1 ++ l2) as [l2 Hordb].
        { destruct (dfs_loop_spec F fuel (dfs_call_spec F fuel) _ _ _ _ _ Hrest)
            as (l2 & ? & _). by exists l2. }
        split; [done |]. intros b s' Hb Hnb Hs'.
        destruct (decide (b ∈ ord1)) as [Hb1 | Hb1].
        * destruct (Hedges1 b s' Hb1 Hnb Hs') as [Hbef | ?]; [left | by right].
          rewrite Hordb. by apply before_app.
        * by apply Hedges2. }
  rewrite dfsPostorder_unfold; simpl.
  destruct (for_each _ _ _) as [[Vb ordb] |] eqn:Hfor; [| done].
  intros [= <- <-] b s Hb Hnb Hs.
  destruct Hstack as [Hsub Hgray].
  assert (stack_reaches F ({[node]} ∪ V) ord node) as Hstart.
  { split; [set_solver |].
    intros g [->%elem_of_singleton | Hg]%elem_of_union Hnot;
      [apply rtc_refl | by apply Hgray]. }
  destruct (Hloop _ _ _ _ _ (λ s Hs, Hs) Hstart Hfor)
    as [[Hsubb Hgrayb] Hedges].
  apply elem_of_app in Hb as [Hb | ->%list_elem_of_singleton].
  - destruct (Hedges b s Hb Hnb Hs) as [Hbef | ?]; [left | by right].
    by apply before_app.
  - destruct (dfs_loop_spec F fuel (dfs_call_spec F fuel) _ _ _ _ _ Hfor)
      as (l & _ & _ & _ & Hin).
    destruct (decide (s ∈ ordb)) as [Hsb | Hsb].
    + left. by apply before_snoc.
    + right. apply Hgrayb; [by apply Hin | done].
Qed.

(** X10.  In the order [dfsPostorder] computes, every successor of a block
    stands before the block, unless the block is reachable from that
    successor (the edge closes a cycle): on an acyclic graph the order lists
    every block after all its successors. *)
Theorem postorder_puts_successors_first (F : Function) :
  ∃ visited order,
    dfsPostorder (dfs_fuel F) F (entry F) (∅, []) = Some (visited, order) ∧
    ∀ b s, b ∈ order → s ∈ successors F b →
           before order s b ∨ reachable F s b.
Proof.
  destruct (dfs_order_spec F) as (visited & order & Hdfs & _).
  exists visited, order. split; [done |]. intros b s Hb Hs.
  eapply (dfs_call_edges F); [| | exact Hdfs | done | | done].
  - set_solver.
  - split; [by intros x ?%elem_of_nil | set_solver].
  - by intros ?%elem_of_nil.
Qed.

(** ** The order is the depth-first postorder *)

Scheme postorder_mut := Minimality for postorder Sort Prop
  with postorder_succs_mut := Minimality for postorder_succs Sort Prop.

(** At most one sequence is the depth-first postorder from a block. *)
Lemma postorder_unique F V node l l' :
  postorder F V node l → postorder F V node l' → l = l'.
Proof.
  intros Hpost. revert l'.
  apply (postorder_mut F
           (λ V node l, ∀ l', postorder F V node l' → l = l')
           (λ V ss l, ∀ l', postorder_succs F V ss l' → l = l'));
    [| | | | exact Hpost].
  - intros V0 n l0 Hn _ IH l' Hl'.
    inversion Hl' as [V1 n1 l1 Hn1 Hs1]; subst. f_equal. by apply IH.
  - intros V0 l' Hl'. by inversion Hl'.
  - intros V0 s ss l0 Hs _ IH l' Hl'.
    inversion Hl' as [| V1 s1 ss1 l1 Hs1 Hrest | V1 s1 ss1 l1 l2 Hs1];
      subst; [by apply IH | done].
  - intros V0 s ss l1 l2 Hs _ IH1 _ IH2 l' Hl'.
    inversion Hl' as [| V1 s1 ss1 l0 Hs1 | V1 s1 ss1 l1' l2' Hs1 Hp Hrest];
      subst; [done |].
    rewrite <- (IH1 _ Hp) in Hrest. by rewrite (IH1 _ Hp), (IH2 _ Hrest).
Qed.

(** What a call of [dfsPostorder] appends is the depth-first postorder from
    the called block. *)
Lemma dfs_call_postorder F fuel node V ord V' ord' :
  node ∉ V → dfsPostorder fuel F node (V, ord) = Some (V', ord') →
  ∃ l, ord' = ord ++ l ++ [node] ∧ V' = V ∪ list_to_set (l ++ [node]) ∧
       postorder F V node (l ++ [node]).
Proof.
  revert node V ord V' ord'.
  induction fuel as [| fuel IH]; intros node V ord V' ord' Hnode; [done |].
  assert (∀ ss Vc ordc Vb ordb,
             for_each (dfs_succ fuel F) ss (Vc, ordc) = Some (Vb, ordb) →
             ∃ l, ordb = ordc ++ l ∧ Vb = Vc ∪ list_to_set l ∧
                  postorder_succs F Vc ss l) as Hloop.
  { induction ss as [| s ss IHss]; intros Vc ordc Vb ordb; simpl.
    - intros [= <- <-]. exists []. rewrite app_nil_r.
      split; [done |]. split; [set_solver | constructor].
    - unfold dfs_succ at 1; simpl. destruct (decide (s ∈ Vc)) as [Hs | Hs].
      + intros (l & -> & -> & Hl)%IHss. exists l.
        split; [done |]. split; [done |]. by apply postorder_skip.
      + destruct (dfsPostorder fuel F s (Vc, ordc)) as [[V1 ord1] |] eqn:Hcall;
          [| done].
        destruct (IH _ _ _ _ _ Hs Hcall) as (l1 & -> & -> & Hl1).
        intros (l2 & -> & -> & Hl2)%IHss.
        exists ((l1 ++ [s]) ++ l2). split; [by rewrite !app_assoc |].
        split; [rewrite (list_to_set_app_L (l1 ++ [s])); set_solver |].
        by apply postorder_visit. }
  rewrite dfsPostorder_unfold; simpl.
  destruct (for_each _ _ _) as [[Vb ordb] |] eqn:Hfor; [| done].
  intros [= <- <-].
  destruct (Hloop _ _ _ _ _ Hfor) as (l & -> & -> & Hl).
  exists l. split; [by rewrite app_assoc |].
  split; [rewrite list_to_set_app_L; set_solver |].
  by apply postorder_node.
Qed.

(** On [F_diamond] the depth-first postorder is the computed order. *)
Example postorder_diamond : postorder F_diamond ∅ 0 [3; 1; 2; 0].
Proof.
  destruct (dfsPostorder (dfs_fuel F_diamond) F_diamond 0 (∅, []))
    as [[V' ord'] |] eqn:Hcall; [| by vm_compute in Hcall].
  destruct (dfs_call_postorder _ _ _ _ _ _ _ (not_elem_of_empty _) Hcall)
    as (l & Hord & _ & Hpost).
  assert (Some ord' = Some [3; 1; 2; 0]) as [= Heq].
  { change (Some ord') with (snd <$> Some (V', ord')). rewrite <- Hcall.
    vm_compute. reflexivity. }
  simpl in Hord. by rewrite <- Hord, Heq in Hpost.
Qed.

(** C6.  [dfsPostorder] returns on the entry block of every function, cyclic
    or not.  The sequence it produces holds exactly the blocks reachable from
    the entry along successor edges, each once, the entry last; it is the
    depth-first postorder from the entry, and the only one: below every
    block stand first the postorders from its successors, in their order and
    without the blocks visited by then.  Every successor of a block of the
    sequence stands before the block, unless the block is reachable from that
    successor.  Every call (the outer one and each recursive one, all made on
    a block not yet visited) appends the depth-first postorder from the
    called block: first the blocks that the called block reaches through
    blocks unvisited at the time of the call, and the called block itself
    last. *)
Theorem dfsPostorder_reachable_postorder (F : Function) :
  (∃ visited order,
      dfsPostorder (dfs_fuel F) F (entry F) (∅, []) = Some (visited, order) ∧
      NoDup order ∧
      (∀ b, b ∈ order ↔ reachable F (entry F) b) ∧
      last order = Some (entry F) ∧
      postorder F ∅ (entry F) order ∧
      (∀ l, postorder F ∅ (entry F) l → l = order) ∧
      (∀ b s, b ∈ order → s ∈ successors F b →
              before order s b ∨ reachable F s b)) ∧
  (∀ fuel node visited order visited' order',
      node ∉ visited →
      dfsPostorder fuel F node (visited, order) = Some (visited', order') →
      ∃ l, order' = order ++ l ++ [node] ∧
           visited' = visited ∪ list_to_set (l ++ [node]) ∧
           NoDup (l ++ [node]) ∧
           (∀ b, b ∈ l ++ [node] ↔ white_path F visited node b) ∧
           postorder F visited node (l ++ [node])).
Proof.
  split.
  - destruct (dfs_order_spec F)
      as (visited & order & Hcall & _ & Hnd & Hreach & _).
    exists visited, order. repeat (split; [done |]).
    destruct (dfs_call_postorder _ _ _ _ _ _ _ (not_elem_of_empty _) Hcall)
      as (l & Hord & _ & Hpost).
    simpl in Hord. rewrite <- Hord in Hpost.
    split; [rewrite Hord; by rewrite last_snoc |].
    split; [done |]. split.
    + intros l' Hl'. by apply (postorder_unique F ∅ (entry F)).
    + intros b s Hb Hs.
      eapply (dfs_call_edges F); [| | exact Hcall | done | | done].
      * set_solver.
      * split; [by intros x ?%elem_of_nil | set_solver].
      * by intros ?%elem_of_nil.
  - intros fuel node V ord V' ord' Hnode Hcall.
    destruct (dfs_call_spec _ _ _ _ _ _ _ Hnode Hcall)
      as (l & Hord & Happ & Hwp).
    exists l. split; [done |].
    pose proof (dfs_call_complete _ _ _ _ _ _ _ l Hnode Hcall Hord Happ).
    destruct (dfs_call_postorder _ _ _ _ _ _ _ Hnode Hcall)
      as (l' & Hord' & _ & Hpost).
    assert (l' = l) as ->.
    { rewrite Hord in Hord'. apply app_inv_head in Hord'.
      by apply app_inv_tail in Hord'. }
    destruct Happ as (? & ? & _). repeat (split; [done |]).
    split; [| done]. intros b. split; auto.
Qed.

(** ** The shape of the block transfer function *)

(** X11.  The backward scan of a block acts on the set it starts from as a
    constant part plus a filter: the result is what the scan yields from the
    empty set, together with the locations of the start set that the block
    does not store to.  Hence the scan distributes over unions. *)
Theorem transfer_is_gen_kill (body : list Instruction) (X Y : gset Value) :
  transfer body X = transfer body ∅ ∪ (X ∖ stored_ptrs_of body) ∧
  transfer body (X ∪ Y) = transfer body X ∪ transfer body Y.
Proof.
  assert (∀ Z : gset Value,
             transfer body Z = transfer body ∅ ∪ (Z ∖ stored_ptrs_of body))
    as Hform.
  { intros Z. induction body as [| Instr body IH]; [set_solver |].
    rewrite !transfer_cons, IH.
    destruct Instr as [ptr vol | val ptr vol |].
    - simpl. set_solver.
    - rewrite !transfer_instr_store. simpl. set_solver.
    - done. }
  split; [apply Hform |].
  rewrite (Hform (X ∪ Y)), (Hform X), (Hform Y). set_solver.
Qed.

(** ** The analysis stays valid after the pass *)

Lemma for_each_ext {A S : Type} (f g : A → S → option S) l s :
  (∀ x s, f x s = g x s) → for_each f l s = for_each g l s.
Proof.
  intros Hfg. revert s. induction l as [| x l IH]; intros s; [done |].
  simpl. rewrite Hfg. by destruct (g x s).
Qed.

Lemma dfsPostorder_ext F G fuel node st :
  (∀ B, successors F B = successors G B) →
  dfsPostorder fuel F node st = dfsPostorder fuel G node st.
Proof.
  intros Hsucc. revert node st.
  induction fuel as [| fuel IH]; intros node st; [done |].
  rewrite !dfsPostorder_unfold, Hsucc.
  rewrite (for_each_ext (dfs_succ fuel F) (dfs_succ fuel G)); [done |].
  intros s st'. unfold dfs_succ. by rewrite IH.
Qed.

Lemma elem_of_all_blocks F x :
  x ∈ all_blocks F ↔
  x = entry F ∨ x ∈ dom (blocks F) ∨ ∃ a, x ∈ successors F a.
Proof.
  unfold all_blocks.
  rewrite !elem_of_union, elem_of_singleton, elem_of_list_to_set.
  split.
  - intros [[? | ?] | Hx]; [by left | by right; left |]. right; right.
    apply list_elem_of_join in Hx as (l & Hx & Hl).
    apply list_elem_of_fmap in Hl as (b & -> & Hb).
    apply list_elem_of_fmap in Hb as ([a b'] & -> & Hab).
    apply elem_of_map_to_list in Hab. exists a.
    unfold successors. by rewrite Hab.
  - intros [? | [? | [a Ha]]]; [by left; left | by left; right |].
    pose proof (successors_all_blocks F a x Ha) as Hin.
    unfold all_blocks in Hin.
    by rewrite !elem_of_union, elem_of_singleton, elem_of_list_to_set in Hin.
Qed.

Lemma dom_erase_all F toErase :
  dom (blocks (erase_all F toErase)) = dom (blocks F).
Proof.
  apply set_eq. intros B. rewrite !elem_of_dom. unfold erase_all; simpl.
  rewrite map_lookup_imap. destruct (blocks F !! B); simpl; [| done].
  split; eauto.
Qed.

Lemma all_blocks_erase_all F toErase :
  all_blocks (erase_all F toErase) = all_blocks F.
Proof.
  apply set_eq. intros x. rewrite !elem_of_all_blocks, dom_erase_all.
  by setoid_rewrite successors_erase_all.
Qed.

(** The solution for the function after the pass is the one for the
    function before it. *)
Lemma liveness_after_pass F order lv D order' lv' D' :
  analysis F order lv D → analysis (erase_all F D) order' lv' D' →
  ∀ B, loads_in lv' !!! B = loads_in lv !!! B ∧
       loads_out lv' !!! B = loads_out lv !!! B.
Proof.
  intros HF HF'.
  assert (∀ B, B ∈ order' ↔ B ∈ order) as Hord.
  { intros B. rewrite (an_reachable _ _ _ _ HF), (an_reachable _ _ _ _ HF').
    symmetry. apply reachable_agree; [done |].
    intros B' _. symmetry. apply successors_erase_all. }
  assert (∀ B, B ∈ order →
               instrs (erase_all F D) B
               = prune (instrs F B) (loads_out lv !!! B)) as Hins.
  { intros B HB.
    by rewrite (instrs_after_pass F order lv D B HF), decide_True. }
  intros B. apply liveness_le_antisym.
  - eapply (least_below (erase_all F D) F); [done | done | apply Hord | |].
    + intros B' _. apply successors_erase_all.
    + intros B' HB'%Hord. rewrite (Hins B' HB'), transfer_prune.
      by destruct (an_fixpoint _ _ _ _ HF B' HB') as [_ <-].
  - eapply (least_below F (erase_all F D)); [done | done | apply Hord | |].
    + intros B' _. symmetry. apply successors_erase_all.
    + intros B' HB'. rewrite (Hins B' HB'). apply transfer_prune_above.
Qed.

(** X12.  Erasing the dead stores invalidates nothing the pass has
    computed: on the function after the pass, [dfsPostorder] yields the same
    visited set and order, and the solver converges to the same [loads_in]
    and [loads_out]. *)
Theorem analysis_survives_the_pass (F : Function) :
  ∃ visited order lv toErase,
    dead_stores F = Some toErase ∧
    dfsPostorder (dfs_fuel F) F (entry F) (∅, []) = Some (visited, order) ∧
    solve (solve_fuel F order) F order (init_liveness order) = Some lv ∧
    dfsPostorder (dfs_fuel (erase_all F toErase)) (erase_all F toErase)
                 (entry (erase_all F toErase)) (∅, [])
      = Some (visited, order) ∧
    solve (solve_fuel (erase_all F toErase) order) (erase_all F toErase) order
          (init_liveness order) = Some lv.
Proof.
  destruct (pass_run F)
    as (visited & order & lv & Hdfs & Hsolve & Hdead & _ & Han).
  set (D := (mark F order (loads_out lv)).2) in *.
  destruct (pass_run (erase_all F D))
    as (visited' & order' & lv' & Hdfs' & Hsolve' & _ & _ & Han').
  exists visited, order, lv, D. repeat (split; [done |]).
  assert (visited' = visited ∧ order' = order) as [-> ->].
  { unfold dfs_fuel in Hdfs'. rewrite all_blocks_erase_all in Hdfs'.
    rewrite (dfsPostorder_ext (erase_all F D) F) in Hdfs'
      by apply successors_erase_all.
    fold (dfs_fuel F) in Hdfs'. simpl in Hdfs'.
    rewrite Hdfs in Hdfs'. by injection Hdfs' as <- <-. }
  split; [done |]. rewrite Hsolve'. f_equal.
  apply (liveness_eq order order);
    [by eapply solve_keyed | by eapply solve_keyed | done |].
  by apply (liveness_after_pass F order lv D order lv' _ Han Han').
Qed.

(** ** Stores decided within their block *)

Lemma may_read_up_to_load F L B k j vol :
  k ≤ j → instrs F B !! j = Some (LoadInst L vol) →
  (∀ m val vol', k ≤ m < j →
                 instrs F B !! m ≠ Some (StoreInst val L vol')) →
  may_read F L B k.
Proof.
  intros Hkj Hj. remember (j - k) as d eqn:Hd. revert k Hkj Hd.
  induction d as [| d IH]; intros k Hkj Hd Hnostore.
  - assert (k = j) as -> by lia. by eapply may_read_load.
  - assert (is_Some (instrs F B !! k)) as [Instr Hk].
    { apply lookup_lt_is_Some. apply lookup_lt_Some in Hj. lia. }
    eapply may_read_next; [exact Hk | |].
    + intros val vol' ->. eapply (Hnostore k); [lia | done].
    + apply IH; [lia | lia |]. intros m val vol' Hm. apply Hnostore. lia.
Qed.

Lemma no_read_up_to_store F L B k j val vol :
  k ≤ j → instrs F B !! j = Some (StoreInst val L vol) →
  (∀ m vol', k ≤ m < j → instrs F B !! m ≠ Some (LoadInst L vol')) →
  ¬ may_read F L B k.
Proof.
  intros Hkj Hj. remember (j - k) as d eqn:Hd. revert k Hkj Hd.
  induction d as [| d IH]; intros k Hkj Hd Hnoload Hread.
  - assert (k = j) as -> by lia.
    inversion Hread
      as [B' k' vol' Hk | B' k' Instr Hk Hns _ | B' k' S Hlen _ _]; subst.
    + congruence.
    + rewrite Hj in Hk. injection Hk as <-. by eapply Hns.
    + apply lookup_lt_Some in Hj. lia.
  - inversion Hread
      as [B' k' vol' Hk | B' k' Instr Hk Hns Hnext | B' k' S Hlen _ _]; subst.
    + eapply (Hnoload k); [lia | done].
    + eapply (IH (S k)); [lia | lia | | done].
      intros m vol' Hm. apply Hnoload. lia.
    + apply lookup_lt_Some in Hj. lia.
Qed.

Lemma may_read_in_exit_block F L B k :
  may_read F L B k → successors F B = [] →
  ∃ j vol, k ≤ j ∧ instrs F B !! j = Some (LoadInst L vol).
Proof.
  induction 1 as [B k vol Hk | B k Instr _ _ _ IH | B k S _ HS _ _];
    intros Hexit.
  - by exists k, vol.
  - destruct (IH Hexit) as (j & vol & Hj & Hload). exists j, vol.
    split; [lia | done].
  - rewrite Hexit in HS. by apply elem_of_nil in HS.
Qed.

(** X13.  A store that a load of the same location follows in its block,
    with no store to that location in between, is never erased: it is not
    collected, and it is still in its block in the function returned. *)
Theorem store_read_in_its_block_is_kept (F : Function) (B : BasicBlock)
    (i j : nat) (val ptr : Value) (vol vol' : bool) :
  i < j →
  instrs F B !! i = Some (StoreInst val ptr vol) →
  instrs F B !! j = Some (LoadInst ptr vol') →
  (∀ k val' vol'', i < k < j →
                   instrs F B !! k ≠ Some (StoreInst val' ptr vol'')) →
  ∃ toErase F' changed,
    dead_stores F = Some toErase ∧
    runOnFunction F = Some (F', changed) ∧
    erases_exactly F F' toErase ∧
    ((B, i) ∉ toErase) ∧
    ∃ i', i' ≤ i ∧ instrs F' B !! i' = Some (StoreInst val ptr vol).
Proof.
  intros Hij Hi Hj Hnostore.
  destruct (pass_erases_never_read F)
    as (toErase & F' & changed & Hdead & Hrun & Her & Hiff).
  exists toErase, F', changed. repeat (split; [done |]).
  assert ((B, i) ∉ toErase) as Hkept.
  { intros (_ & val0 & ptr0 & vol0 & Hi0 & Hnever)%Hiff.
    rewrite Hi in Hi0. injection Hi0 as <- <- <-. apply Hnever.
    apply (may_read_up_to_load F ptr B (S i) j vol'); [lia | done |].
    intros m val' vol'' Hm. apply Hnostore. lia. }
  split; [done |]. by eapply (erasure_kept _ 0 _ _ i _ (Her B)).
Qed.

(** X14.  A store in a reachable block that another store to the same
    location follows in its block, with no load of that location in between,
    is always erased: it is collected, and the function returned is the given
    one without exactly the collected instructions, its block strictly
    shorter. *)
Theorem overwritten_store_is_erased (F : Function) (B : BasicBlock)
    (i j : nat) (val val' ptr : Value) (vol vol' : bool) :
  reachable F (entry F) B →
  i < j →
  instrs F B !! i = Some (StoreInst val ptr vol) →
  instrs F B !! j = Some (StoreInst val' ptr vol') →
  (∀ k vol'', i < k < j → instrs F B !! k ≠ Some (LoadInst ptr vol'')) →
  ∃ toErase F' changed,
    dead_stores F = Some toErase ∧
    runOnFunction F = Some (F', changed) ∧
    erases_exactly F F' toErase ∧
    (B, i) ∈ toErase ∧
    length (instrs F' B) < length (instrs F B).
Proof.
  intros HB Hij Hi Hj Hnoload.
  destruct (pass_erases_never_read F)
    as (toErase & F' & changed & Hdead & Hrun & Her & Hiff).
  exists toErase, F', changed. repeat (split; [done |]).
  assert ((B, i) ∈ toErase) as Hin.
  { apply Hiff. split; [done |].
    exists val, ptr, vol. split; [done |].
    apply (no_read_up_to_store F ptr B (S i) j val' vol'); [lia | done |].
    intros m vol'' Hm. apply Hnoload. lia. }
  split; [done |]. eapply erases_exactly_shorter; [done | done |].
  by apply lookup_lt_Some in Hi.
Qed.

(** X15.  In a reachable block without successors, a store that no load of
    the same location follows in the block is always erased (nothing is live
    when the function exits): it is collected, and the function returned is
    the given one without exactly the collected instructions, its block
    strictly shorter. *)
Theorem unread_store_of_exit_block_is_erased (F : Function) (B : BasicBlock)
    (i : nat) (val ptr : Value) (vol : bool) :
  reachable F (entry F) B →
  successors F B = [] →
  instrs F B !! i = Some (StoreInst val ptr vol) →
  (∀ k vol', i < k → instrs F B !! k ≠ Some (LoadInst ptr vol')) →
  ∃ toErase F' changed,
    dead_stores F = Some toErase ∧
    runOnFunction F = Some (F', changed) ∧
    erases_exactly F F' toErase ∧
    (B, i) ∈ toErase ∧
    length (instrs F' B) < length (instrs F B).
Proof.
  intros HB Hexit Hi Hnoload.
  destruct (pass_erases_never_read F)
    as (toErase & F' & changed & Hdead & Hrun & Her & Hiff).
  exists toErase, F', changed. repeat (split; [done |]).
  assert ((B, i) ∈ toErase) as Hin.
  { apply Hiff. split; [done |].
    exists val, ptr, vol. split; [done |].
    intros (j & vol' & Hj & Hload)%may_read_in_exit_block; [| done].
    eapply (Hnoload j); [lia | done]. }
  split; [done |]. eapply erases_exactly_shorter; [done | done |].
  by apply lookup_lt_Some in Hi.
Qed.

(** X16.  The pass returns [false], leaving the function as it is, exactly
    when every store of every reachable block is to a location that some
    path from the point after the store reads before storing to it again. *)
Theorem unchanged_iff_every_store_is_read (F : Function) :
  ∃ F' changed,
    runOnFunction F = Some (F', changed) ∧
    (changed = false → F' = F) ∧
    (changed = false ↔
     ∀ B i val ptr vol,
       reachable F (entry F) B →
       instrs F B !! i = Some (StoreInst val ptr vol) →
       may_read F ptr B (S i)).
Proof.
  destruct (pass_run F)
    as (visited & order & lv & _ & Hsolve & Hdead & Hrun & Han).
  set (D := (mark F order (loads_out lv)).2) in *.
  exists (erase_all F D), (bool_decide (D ≠ [])). split; [done |].
  rewrite bool_decide_eq_false.
  split; [intros ->%dec_stable; apply erase_all_nil |]. split.
  - intros HD%dec_stable B i val ptr vol HB%(an_reachable _ _ _ _ Han) Hi.
    apply (transfer_may_read_drop F B ptr (loads_out lv !!! B));
      [by apply lookup_lt_Some in Hi | |].
    { apply (solve_within_paths _ _ _ _ Hsolve B ptr). }
    apply dec_stable. intros Hnot.
    apply (elem_of_nil (B, i)). rewrite <- HD.
    apply (an_dead _ _ _ _ Han). split; [done |].
    unfold is_dead_store. by rewrite Hi.
  - intros Hall HD. destruct (nil_or_elem D) as [? | [[B i] Hr]]; [done |].
    destruct (marked_iff_never_read F) as (D0 & HD0 & _ & Hiff).
    rewrite Hdead in HD0. injection HD0 as <-.
    apply Hiff in Hr as (HB & val & ptr & vol & Hi & Hnever).
    by apply Hnever, (Hall B i val ptr vol).
Qed.

(** ** Convergence on acyclic graphs *)

Lemma visits_at_fixpoint F l lv :
  (∀ B, B ∈ l → fixpoint_at F lv B) → visits F l (false, lv) = (false, lv).
Proof.
  induction l as [| BB l IH]; intros Hfix; [done |].
  rewrite visits_cons.
  destruct (visit_block_spec F BB false lv)
    as (c1 & lv1 & -> & _ & _ & Hch & Hsame).
  destruct (Hfix BB) as [Hout Hin]; [by left |].
  assert (c1 = false) as ->.
  { destruct c1; [| done]. exfalso.
    destruct (proj1 Hch eq_refl) as [? | [Hne | Hne]]; [done | |].
    - by apply Hne.
    - apply Hne. unfold new_in_of, new_out_of. by rewrite <- Hout. }
  rewrite (Hsame eq_refl). apply IH. intros B HB. apply Hfix. by right.
Qed.

(** When the successors of every block stand before it in the order, one
    pass establishes the equations at every block. *)
Lemma visits_establish_fixpoint F (order : list BasicBlock) :
  NoDup order →
  (∀ b s, b ∈ order → s ∈ successors F b → before order s b) →
  ∀ l1 l2 changed lv,
    order = l1 ++ l2 →
    (∀ B, B ∈ l1 → fixpoint_at F lv B) →
    ∀ B, B ∈ order → fixpoint_at F (visits F l2 (changed, lv)).2 B.
Proof.
  intros Hnd Hfirst l1 l2. revert l1.
  induction l2 as [| BB l2 IH]; intros l1 changed lv Hord Hfix.
  - rewrite app_nil_r in Hord. subst l1. exact Hfix.
  - rewrite visits_cons.
    destruct (visit_block_spec F BB changed lv)
      as (c1 & lv1 & -> & Hout & Hin & _).
    apply (IH (l1 ++ [BB])); [by rewrite <- app_assoc |].
    assert (BB ∉ l1) as HBB.
    { rewrite Hord in Hnd. apply NoDup_app in Hnd as (_ & Hdisj & _).
      intros HBB. apply (Hdisj BB HBB). by left. }
    assert (∀ b s, b ∈ l1 ++ [BB] → s ∈ successors F b → s ∈ l1) as Hsucc.
    { intros b s Hb Hs.
      assert (b ∈ order) as Hbo.
      { rewrite Hord.
        apply elem_of_app in Hb as [? | ->%list_elem_of_singleton];
          apply elem_of_app; [by left | right; by left]. }
      destruct (Hfirst b s Hbo Hs) as (i & j & Hi & Hj & Hlt).
      assert (j ≤ length l1) as Hjl.
      { apply elem_of_app in Hb as [Hb | ->%list_elem_of_singleton].
        - apply list_elem_of_lookup_1 in Hb as (j' & Hj').
          assert (order !! j' = Some b) as Hj''
            by (rewrite Hord; by apply lookup_app_l_Some).
          rewrite (NoDup_lookup _ _ _ _ Hnd Hj Hj'').
          apply lookup_lt_Some in Hj'. lia.
        - assert (order !! length l1 = Some BB) as Hj''
            by (rewrite Hord; by apply list_lookup_middle).
          by rewrite (NoDup_lookup _ _ _ _ Hnd Hj Hj''). }
      rewrite Hord in Hi. rewrite lookup_app_l in Hi by lia.
      by eapply list_elem_of_lookup_2. }
    assert (∀ b, b ∈ l1 ++ [BB] →
                 union_of_in (loads_in lv1) (successors F b)
                 = union_of_in (loads_in lv) (successors F b)) as Hunion.
    { intros b Hb. apply set_eq. intros x. rewrite !elem_of_union_of_in.
      f_equiv. intros s. split; intros [Hs Hx]; (split; [done |]).
      - rewrite Hin in Hx. case_decide; [| done]. subst s.
        by apply Hsucc in Hs.
      - rewrite Hin. case_decide; [| done]. subst s. by apply Hsucc in Hs. }
    intros B HB. unfold fixpoint_at. rewrite (Hunion B HB), Hout, Hin.
    apply elem_of_app in HB as [HB | ->%list_elem_of_singleton].
    + rewrite !decide_False by (intros ->; done). by apply Hfix.
    + by rewrite !decide_True.
Qed.

Lemma solve_in_two_passes F (order : list BasicBlock) :
  NoDup order →
  (∀ b s, b ∈ order → s ∈ successors F b → before order s b) →
  is_Some (solve 2 F order (init_liveness order)).
Proof.
  intros Hnd Hfirst.
  pose proof (visits_establish_fixpoint F order Hnd Hfirst [] order false
                (init_liveness order) eq_refl) as Hfix.
  simpl. change (solver_pass F order (init_liveness order))
    with (visits F order (false, init_liveness order)).
  destruct (visits F order (false, init_liveness order)) as [[] lv1];
    [| eauto].
  simpl in Hfix.
  change (solver_pass F order lv1) with (visits F order (false, lv1)).
  rewrite visits_at_fixpoint; [eauto |].
  apply Hfix. by intros B ?%elem_of_nil.
Qed.

(** X17.  On a function whose reachable blocks form no cycle, the order
    [dfsPostorder] computes makes the solver converge at once: the [while]
    loop ends after at most two passes, the second of which finds nothing
    to change. *)
Theorem acyclic_function_is_solved_in_two_passes (F : Function) :
  (∀ b s, reachable F (entry F) b → s ∈ successors F b →
          ¬ reachable F s b) →
  ∃ visited order lv,
    dfsPostorder (dfs_fuel F) F (entry F) (∅, []) = Some (visited, order) ∧
    solve 2 F order (init_liveness order) = Some lv.
Proof.
  intros Hacyclic.
  destruct (dfs_order_spec F)
    as (visited & order & Hdfs & _ & Hnd & Hreach & _).
  destruct (solve_in_two_passes F order Hnd) as [lv Hsolve].
  { intros b s Hb Hs.
    assert (stack_reaches F ∅ [] (entry F)) as Hstack
      by (split; [by intros x ?%elem_of_nil | set_solver]).
    assert (b ∉ []) as Hnb by (by intros ?%elem_of_nil).
    destruct (dfs_call_edges F _ _ _ _ _ _ (not_elem_of_empty _) Hstack
                Hdfs b s Hb Hnb Hs) as [? | Hback]; [done |].
    exfalso. eapply Hacyclic; [| exact Hs | exact Hback]. by apply Hreach. }
  by exists visited, order, lv.
Qed.

(** ** Witnesses of the further properties *)

(** Witness for X3: nothing loads from location [1] in [F_chain]. *)
Lemma stores_to_unloaded_location_are_erased_witness :
  (∀ B i vol, reachable F_chain (entry F_chain) B →
              instrs F_chain B !! i ≠ Some (LoadInst 1 vol)) ∧
  ∃ toErase F' changed,
    dead_stores F_chain = Some toErase ∧
    runOnFunction F_chain = Some (F', changed) ∧
    erases_exactly F_chain F' toErase ∧
    (∀ B i val vol,
        reachable F_chain (entry F_chain) B →
        instrs F_chain B !! i = Some (StoreInst val 1 vol) →
        (B, i) ∈ toErase) ∧
    (∀ B j val vol,
        reachable F_chain (entry F_chain) B →
        instrs F' B !! j ≠ Some (StoreInst val 1 vol)).
Proof.
  assert (∀ B i vol, reachable F_chain (entry F_chain) B →
                     instrs F_chain B !! i ≠ Some (LoadInst 1 vol)) as Hnoload.
  { intros B i vol _. unfold F_chain. rewrite instrs_single_block.
    destruct (decide (B = 0)); [| by rewrite lookup_nil].
    by destruct i as [| [| i]]. }
  split; [exact Hnoload |].
  exact (stores_to_unloaded_location_are_erased F_chain 1 Hnoload).
Defined.



(** Witness for X13: the second store of [F_overwrite], read by the load
    below it, while the first one is erased. *)
Lemma store_read_in_its_block_is_kept_witness :
  ∃ toErase F' changed,
    dead_stores F_overwrite = Some toErase ∧
    runOnFunction F_overwrite = Some (F', changed) ∧
    erases_exactly F_overwrite F' toErase ∧
    ((0, 1) ∉ toErase) ∧
    ∃ i', i' ≤ 1 ∧ instrs F' 0 !! i' = Some (StoreInst 0 1 false).
Proof.
  apply (store_read_in_its_block_is_kept F_overwrite 0 1 2 0 1 false false).
  - lia.
  - reflexivity.
  - reflexivity.
  - intros k val' vol'' Hk. lia.
Defined.

(** Witness for X14: the first store of [F_overwrite], overwritten by the
    second. *)
Lemma overwritten_store_is_erased_witness :
  ∃ toErase F' changed,
    dead_stores F_overwrite = Some toErase ∧
    runOnFunction F_overwrite = Some (F', changed) ∧
    erases_exactly F_overwrite F' toErase ∧
    (0, 0) ∈ toErase ∧
    length (instrs F' 0) < length (instrs F_overwrite 0).
Proof.
  apply (overwritten_store_is_erased F_overwrite 0 0 1 0 0 1 false false).
  - apply rtc_refl.
  - lia.
  - reflexivity.
  - reflexivity.
  - intros k vol'' Hk. lia.
Defined.

(** Witness for X15: the second store of [F_chain], the last instruction of
    an exit block. *)
Lemma unread_store_of_exit_block_is_erased_witness :
  ∃ toErase F' changed,
    dead_stores F_chain = Some toErase ∧
    runOnFunction F_chain = Some (F', changed) ∧
    erases_exactly F_chain F' toErase ∧
    (0, 1) ∈ toErase ∧
    length (instrs F' 0) < length (instrs F_chain 0).
Proof.
  apply (unread_store_of_exit_block_is_erased F_chain 0 1 0 1 false).
  - apply rtc_refl.
  - reflexivity.
  - reflexivity.
  - intros k vol' Hk. by destruct k as [| [| k]]; [lia | lia |].
Defined.

Lemma successors_F_branch b :
  successors F_branch b = if decide (b = 0) then [1; 2] else [].
Proof.
  unfold successors, F_branch; simpl.
  destruct (decide (b = 0)) as [-> | H0]; [done |].
  rewrite lookup_insert_ne by done.
  destruct (decide (b = 1)) as [-> | H1]; [done |].
  rewrite lookup_insert_ne by done.
  destruct (decide (b = 2)) as [-> | H2]; [done |].
  by rewrite lookup_insert_ne, lookup_empty by done.
Qed.

(** Witness for X17: [F_branch] has no cycle. *)
Lemma acyclic_function_is_solved_in_two_passes_witness :
  (∀ b s, reachable F_branch (entry F_branch) b →
          s ∈ successors F_branch b → ¬ reachable F_branch s b) ∧
  ∃ visited order lv,
    dfsPostorder (dfs_fuel F_branch) F_branch (entry F_branch) (∅, [])
      = Some (visited, order) ∧
    solve 2 F_branch order (init_liveness order) = Some lv.
Proof.
  assert (∀ b s, reachable F_branch (entry F_branch) b →
                 s ∈ successors F_branch b → ¬ reachable F_branch s b)
    as Hacyclic.
  { intros b s _ Hs Hback. rewrite successors_F_branch in Hs.
    destruct (decide (b = 0)) as [-> | _]; [| by apply elem_of_nil in Hs].
    apply rtc_inv in Hback as [-> | (y & Hy & _)]; [set_solver |].
    unfold edge in Hy. rewrite successors_F_branch in Hy.
    destruct (decide (s = 0)) as [-> | _]; [set_solver |].
    by apply elem_of_nil in Hy. }
  split; [exact Hacyclic |].
  exact (acyclic_function_is_solved_in_two_passes F_branch Hacyclic).
Defined.
